(** * libratom: the entity extraction pipeline

    A shallow embedding of [libratom/lib/entities.py]: the worker job
    function [process_message] and the controller [extract_entities],
    which consumes the unordered outcome stream of the worker pool, builds
    Message / Attachment / Entity rows, stages them in a database session,
    commits in batches and reports progress.

    Python dictionaries are finite maps from strings to Python values;
    exceptions are explicit results; the session, the entity buffer, the
    message counter and everything observable from outside (log records,
    progress callbacks, pool shutdown calls) are threaded through a state
    record. *)

From Stdlib Require Import ZArith.
From stdpp Require Import base gmap strings list fin_maps sorting.

Local Open Scope Z_scope.
Local Set Warnings "-clear-no-such-hyp".

(** ** Python values and exceptions *)

(** [datetime.utcnow()] values; only their identity matters here. *)
Definition datetime : Type := Z.

(** What the code looks at in an exception instance: its class and the
    text [str(exc)] gives.  Only instances of [Exception] are values of
    this type; [KeyboardInterrupt] is kept apart (see [thrown]). *)
Record Exception : Type := mkException {
  exc_class : string;
  exc_str : string
}.

Definition KeyError (key : string) : Exception :=
  mkException "KeyError" ("'" +:+ key +:+ "'").
Definition TypeError (msg : string) : Exception :=
  mkException "TypeError" msg.
Definition ZeroDivisionError : Exception :=
  mkException "ZeroDivisionError" "integer division or modulo by zero".
Definition NoResultFound : Exception :=
  mkException "NoResultFound" "No row was found for one()".
Definition MultipleResultsFound : Exception :=
  mkException "MultipleResultsFound" "Multiple rows were found for one()".

(** What can unwind the controller: an [Exception], or the interrupt that
    only the controller process receives. *)
Inductive thrown : Type :=
| Exc (e : Exception)
| KeyboardInterrupt.

(** Truth value of the error slot, as [if error:] tests it: [None] and the
    empty string are false. *)
Definition truthy (error : option string) : bool :=
  match error with
  | None => false
  | Some s => negb (String.eqb s "")
  end.

Ltac in_log :=
  rewrite ?elem_of_app, ?elem_of_cons, ?elem_of_nil; naive_solver.

(** Closing a goal on concrete data by evaluation. *)
Ltac by_evaluation := vm_compute; reflexivity.

Ltac all_well_formed :=
  repeat match goal with x := _ |- _ => subst x end;
  repeat (apply Forall_cons_2; [by_evaluation|]); apply Forall_nil_2.

Section Pipeline.

(** [AttachmentMetadata] is a named tuple declared in [libratom.lib.base];
    the pipeline only carries its values around. *)
Context {AttachmentMetadata : Type}.

(** The values stored in the result dictionary of a job. *)
Inductive pyval : Type :=
| VStr (s : string)
| VInt (n : Z)
| VDatetime (t : datetime)
| VAttachments (l : list AttachmentMetadata)
| VEntities (l : list (string * string)).

(** ** The job function *)

(** The analysis capability [spacy_model(message)] followed by the reading
    of [doc.ents]: either the (text, label) pairs or the exception raised. *)
Definition Language : Type := string → Exception + list (string * string).

(** [process_message] (entities.py, lines 58-88).  The decorator
    [imap_job] of [libratom.lib.concurrency] unpacks the job descriptor
    into the named arguments; [t_start] and [t_end] are the two readings of
    [datetime.utcnow()]. *)
Definition process_message
    (filepath : string) (message_id : Z) (message : string)
    (attachments : list AttachmentMetadata) (spacy_model : Language)
    (t_start t_end : datetime) : gmap string pyval * option string :=
  let res : gmap string pyval :=
    <["attachments" := VAttachments attachments]>
      (<["processing_start_time" := VDatetime t_start]>
        (<["message_id" := VInt message_id]>
          (<["filepath" := VStr filepath]> ∅))) in
  match spacy_model message with
  | inr ents =>
      let res := <["entities" := VEntities ents]> res in
      let res := <["processing_end_time" := VDatetime t_end]> res in
      (res, None)
  | inl exc => (res, Some (exc_str exc))
  end.

(** ** The relational records *)

(** Modelled from the spec: the row classes of [libratom.models] are not
    part of this source tree.  A FileReport is identified by its path and
    is only looked up here; [fr_id] stands for the rest of its columns. *)
Record FileReport : Type := mkFileReport {
  fr_id : Z;
  path : string
}.

(** Modelled from the spec: a Message carries the archive-native
    identifier, the two processing timestamps and zero or one owning
    FileReport.  Attributes the constructor was not given are [None]. *)
Record Message : Type := mkMessage {
  pff_identifier : pyval;
  processing_start_time : option pyval;
  processing_end_time : option pyval;
  msg_file_report : option FileReport
}.

(** Modelled from the spec: an Attachment is the attachment metadata
    linked to its Message and to the resolved FileReport. *)
Record Attachment : Type := mkAttachment {
  att_metadata : AttachmentMetadata;
  att_message : Message;
  att_file_report : option FileReport
}.

(** Modelled from the spec: an Entity is an extracted span with its label,
    the originating file path, the owning Message and FileReport. *)
Record Entity : Type := mkEntity {
  text : string;
  label_ : string;
  ent_filepath : pyval;
  ent_message : Message;
  ent_file_report : option FileReport
}.

Inductive Row : Type :=
| RMessage (m : Message)
| RAttachment (a : Attachment)
| REntity (e : Entity).

Definition is_message (r : Row) : bool :=
  match r with RMessage _ => true | _ => false end.
Definition is_attachment (r : Row) : bool :=
  match r with RAttachment _ => true | _ => false end.
Definition is_entity (r : Row) : bool :=
  match r with REntity _ => true | _ => false end.

(** ** The database session *)

(** Modelled from the spec: the SQLAlchemy session, as the store interface
    the pipeline consumes: [add], [add_all], [query(..).filter_by(..).one()],
    [commit] and [rollback], a commit being atomic over everything added
    since the previous commit or rollback.  [file_reports] is the
    file_report table, [pending] the rows added and not yet committed,
    [committed] the durable rows, [commits] the number of commits that
    went through and [attempts] the number of calls of [commit]. *)
Record Session : Type := mkSession {
  file_reports : list FileReport;
  pending : list Row;
  committed : list Row;
  commits : nat;
  attempts : nat
}.

Definition session_add (r : Row) (s : Session) : Session :=
  mkSession (file_reports s) (pending s ++ [r]) (committed s)
            (commits s) (attempts s).

Definition session_add_all (rs : list Row) (s : Session) : Session :=
  mkSession (file_reports s) (pending s ++ rs) (committed s)
            (commits s) (attempts s).

(** Whether the store accepts a commit is not decided by this code: [db]
    says, for the n-th call of [commit] (from 0), which exception it
    raises, if any. *)
Definition session_commit (db : nat → option Exception) (s : Session)
  : Exception * Session + Session :=
  match db (attempts s) with
  | Some exc =>
      inl (exc, mkSession (file_reports s) (pending s) (committed s)
                          (commits s) (S (attempts s)))
  | None =>
      inr (mkSession (file_reports s) [] (committed s ++ pending s)
                     (S (commits s)) (S (attempts s)))
  end.

Definition session_rollback (s : Session) : Session :=
  mkSession (file_reports s) [] (committed s) (commits s) (attempts s).

(** Whether the store answers a lookup is not decided by this code
    either: [lookup_fault] says, for the session and the path of a
    lookup, which exception the store raises instead of answering (a lost
    connection, a locked database, a failed flush), if any. *)
Context (lookup_fault : Session → pyval → option Exception).

(** [session.query(FileReport).filter_by(path=filepath).one()]: the
    exception of the store when the lookup fails, else the only row with
    that path, [one()] raising when there is none or more than one. *)
Definition query_file_report_one (s : Session) (filepath : pyval)
  : Exception + FileReport :=
  match lookup_fault s filepath with
  | Some exc => inl exc
  | None =>
      let rows :=
        match filepath with
        | VStr p => filter (λ fr, path fr = p) (file_reports s)
        | _ => []
        end in
      match rows with
      | [] => inl NoResultFound
      | [fr] => inr fr
      | _ => inl MultipleResultsFound
      end
  end.

(** Modelled from the spec: [Message(pff_identifier=message_id, **res)]
    constructs a Message from the outcome's identifier and timestamps.  The
    class is declared in [libratom.models]; its declarative constructor
    sets the attributes named by the keywords and rejects a keyword that is
    not one of them. *)
Definition Message_init (message_id : pyval) (kwargs : gmap string pyval)
  : Exception + Message :=
  if decide (delete "processing_end_time"
               (delete "processing_start_time" kwargs) = ∅)
  then inr (mkMessage message_id
                      (kwargs !! "processing_start_time")
                      (kwargs !! "processing_end_time")
                      None)
  else inl (TypeError "invalid keyword argument for Message").

Definition set_file_report (fr : option FileReport) (m : Message) : Message :=
  mkMessage (pff_identifier m) (processing_start_time m)
            (processing_end_time m) fr.

(** ** The controller *)

(** The module-level settings read from the environment. *)
Record Config : Type := mkConfig {
  RATOM_MSG_BATCH_SIZE : Z;
  RATOM_DB_COMMIT_BATCH_SIZE : Z;
  MSG_PROGRESS_STEP : Z;
  RATOM_SPACY_MODEL_MAX_LENGTH : Z
}.

Definition default_config : Config := mkConfig 100 10000 10 1000000.

Inductive level : Type := DEBUG | INFO | WARNING | ERROR.

(** The log records the controller writes, by their template. *)
Inductive record : Type :=
| Setting (key : string) (value : Z)
| StartingPool
| SkippingMessage (message_id filepath : pyval)
| SkippedDetail (filepath message_id : pyval) (error : option string)
| UnableToLink (message_id : pyval) (exc : Exception)
| ExceptionRecord (exc : Exception)
| CancellingRunningTask
| PartialResultsWritten
| TerminatingWorkers.

(** What the controller does to the outside, in order. *)
Inductive event : Type :=
| Log (lvl : level) (r : record)
| UpdateProgress (increment : Z)
| PoolTerminate
| PoolJoin.

(** The local state of [extract_entities]. *)
Record State : Type := mkState {
  session : Session;
  new_entities : list Entity;
  msg_count : Z;
  trace : list event
}.

Definition emit (e : event) (st : State) : State :=
  mkState (session st) (new_entities st) (msg_count st) (trace st ++ [e]).

Definition with_session (s : Session) (st : State) : State :=
  mkState s (new_entities st) (msg_count st) (trace st).

Definition with_new_entities (l : list Entity) (st : State) : State :=
  mkState (session st) l (msg_count st) (trace st).

Definition with_msg_count (n : Z) (st : State) : State :=
  mkState (session st) (new_entities st) n (trace st).

(** A statement either falls through to the next one or raises. *)
Inductive flow : Type :=
| Next (st : State)
| Raise (t : thrown) (st : State).

(** [res.pop(key)], continuing with the value and the remaining dict. *)
Definition pop (key : string) (res : gmap string pyval) (st : State)
    (k : pyval → gmap string pyval → flow) : flow :=
  match res !! key with
  | Some v => k v (delete key res)
  | None => Raise (Exc (KeyError key)) st
  end.

(** Lines 250-258: commit once the buffer has reached the threshold. *)
Definition flush_if_full (cfg : Config) (db : nat → option Exception)
    (st : State) : State :=
  if Z.of_nat (length (new_entities st)) <? RATOM_DB_COMMIT_BATCH_SIZE cfg
  then st
  else
    let s := session_add_all (REntity <$> new_entities st) (session st) in
    let st := with_new_entities [] (with_session s st) in
    match session_commit db s with
    | inr s' => with_session s' st
    | inl (exc, s') =>
        let st := emit (Log ERROR (ExceptionRecord exc)) (with_session s' st) in
        with_session (session_rollback s') st
    end.

(** Lines 260-262: [if not msg_count % MSG_PROGRESS_STEP]. *)
Definition report_step (cfg : Config) (st : State) : flow :=
  if MSG_PROGRESS_STEP cfg =? 0 then Raise (Exc ZeroDivisionError) st
  else if msg_count st `mod` MSG_PROGRESS_STEP cfg =? 0
       then Next (emit (UpdateProgress (MSG_PROGRESS_STEP cfg)) st)
       else Next st.

(** Lines 189-201: an outcome tagged with an error is logged and left. *)
Definition skip_message (res : gmap string pyval) (error : option string)
    (st : State) : flow :=
  match res !! "message_id", res !! "filepath" with
  | None, _ => Raise (Exc (KeyError "message_id")) st
  | Some _, None => Raise (Exc (KeyError "filepath")) st
  | Some message_id, Some filepath =>
      let st := emit (Log INFO (SkippingMessage message_id filepath)) st in
      match res !! "error" with
      | Some _ =>
          Raise (Exc (TypeError "format() got multiple values for keyword argument 'error'")) st
      | None =>
          Next (emit (Log DEBUG (SkippedDetail filepath message_id error)) st)
      end
  end.

(** Lines 203-248: a successful outcome becomes a Message, its
    Attachments, both staged at once, and its Entities, which are
    buffered. *)
Definition stage_message (res : gmap string pyval) (st : State) : flow :=
  pop "entities" res st (λ entities res,
  pop "message_id" res st (λ message_id res,
  pop "filepath" res st (λ filepath res,
  pop "attachments" res st (λ attachments res,
  match Message_init message_id res with
  | inl exc => Raise (Exc exc) st
  | inr message =>
      let '(file_report, st) :=
        match query_file_report_one (session st) filepath with
        | inr fr => (Some fr, st)
        | inl exc => (None, emit (Log INFO (UnableToLink message_id exc)) st)
        end in
      let message := set_file_report file_report message in
      let st := with_session (session_add (RMessage message) (session st)) st in
      match attachments with
      | VAttachments atts =>
          let rows :=
            (λ a, RAttachment (mkAttachment a message file_report)) <$> atts in
          let st := with_session (session_add_all rows (session st)) st in
          match entities with
          | VEntities ents =>
              let news :=
                (λ entity, mkEntity (fst entity) (snd entity)
                                    filepath message file_report) <$> ents in
              Next (with_new_entities (new_entities st ++ news) st)
          | _ => Raise (Exc (TypeError "entities is not a list of pairs")) st
          end
      | _ => Raise (Exc (TypeError "attachments is not a list of named tuples")) st
      end
  end)))).

(** The body of the [for] loop, lines 186-262.  The [continue] of the
    error branch leaves the body before the flush and the progress
    report. *)
Definition loop_body (cfg : Config) (db : nat → option Exception)
    (worker_output : gmap string pyval * option string) (st : State) : flow :=
  let '(res, error) := worker_output in
  if truthy error then skip_message res error st
  else
    match stage_message res st with
    | Next st => report_step cfg (flush_if_full cfg db st)
    | Raise t st => Raise t st
    end.

(** What the controller meets when it asks the pool for the next outcome:
    an outcome, in completion order, or the interrupt signal. *)
Inductive arrival : Type :=
| Outcome (worker_output : gmap string pyval * option string)
| Interrupt.

(** [for msg_count, worker_output in enumerate(..., start=1)]: [i] is the
    index [enumerate] hands out next. *)
Fixpoint consume (cfg : Config) (db : nat → option Exception) (i : Z)
    (stream : list arrival) (st : State) : flow :=
  match stream with
  | [] => Next st
  | Interrupt :: _ => Raise KeyboardInterrupt st
  | Outcome worker_output :: rest =>
      match loop_body cfg db worker_output (with_msg_count i st) with
      | Next st => consume cfg db (i + 1) rest st
      | Raise t st => Raise t st
      end
  end.

(** The [try] block, lines 177-268. *)
Definition try_block (cfg : Config) (db : nat → option Exception)
    (stream : list arrival) (st : State) : flow :=
  match consume cfg db 1 stream st with
  | Raise t st => Raise t st
  | Next st =>
      let s := session_add_all (REntity <$> new_entities st) (session st) in
      let st := with_session s st in
      if MSG_PROGRESS_STEP cfg =? 0 then Raise (Exc ZeroDivisionError) st
      else Next (emit (UpdateProgress
                         (msg_count st `mod` MSG_PROGRESS_STEP cfg)) st)
  end.

(** How a call of [extract_entities] ends. *)
Inductive result : Type :=
| Return (status : Z)
| Propagate (exc : Exception).

Definition initial_state (cfg : Config) (s : Session) : State :=
  mkState s [] 0
    [ Log DEBUG (Setting "RATOM_MSG_BATCH_SIZE" (RATOM_MSG_BATCH_SIZE cfg));
      Log DEBUG (Setting "RATOM_DB_COMMIT_BATCH_SIZE"
                         (RATOM_DB_COMMIT_BATCH_SIZE cfg));
      Log DEBUG (Setting "RATOM_SPACY_MODEL_MAX_LENGTH"
                         (RATOM_SPACY_MODEL_MAX_LENGTH cfg));
      Log DEBUG StartingPool ].

(** [extract_entities] (lines 142-281).  [stream] is what
    [pool.imap_unordered(process_message, get_messages(...))] delivers to
    the controller; leaving the [with] block terminates the pool. *)
Definition extract_entities (cfg : Config) (db : nat → option Exception)
    (s : Session) (stream : list arrival) : result * State :=
  match try_block cfg db stream (initial_state cfg s) with
  | Next st => (Return 0, emit PoolTerminate st)
  | Raise KeyboardInterrupt st =>
      let st := emit (Log WARNING CancellingRunningTask) st in
      let st := emit (Log INFO PartialResultsWritten) st in
      let st := emit (Log INFO TerminatingWorkers) st in
      let st := emit PoolTerminate st in
      let st := emit PoolJoin st in
      (Return 1, emit PoolTerminate st)
  | Raise (Exc exc) st => (Propagate exc, emit PoolTerminate st)
  end.

(** The increments the progress callback was called with, in order. *)
Definition progress_calls (tr : list event) : list Z :=
  omap (λ e, match e with UpdateProgress n => Some n | _ => None end) tr.

Definition count_rows (p : Row → bool) (rows : list Row) : nat :=
  length (List.filter p rows).

(** ** Vocabulary of the statements *)

(** The keys a successful record is left with once the four fields have
    been popped and the two timestamps set aside. *)
Definition extra_keys (res : gmap string pyval) : gmap string pyval :=
  delete "processing_end_time"
    (delete "processing_start_time"
      (delete "attachments"
        (delete "filepath"
          (delete "message_id"
            (delete "entities" res))))).

(** An outcome as [process_message] builds them: an error-tagged record
    names its message and file; a successful record carries the entity
    pairs, the identifier, the path, the attachment list and, besides
    them, timestamps only. *)
Definition well_formed_outcome
    (worker_output : gmap string pyval * option string) : bool :=
  let '(res, error) := worker_output in
  if truthy error then
    match res !! "message_id", res !! "filepath", res !! "error" with
    | Some _, Some _, None => true
    | _, _, _ => false
    end
  else
    match res !! "entities", res !! "message_id",
          res !! "filepath", res !! "attachments" with
    | Some (VEntities _), Some _, Some _, Some (VAttachments _) =>
        bool_decide (extra_keys res = ∅)
    | _, _, _, _ => false
    end.

Definition well_formed (a : arrival) : bool :=
  match a with
  | Outcome worker_output => well_formed_outcome worker_output
  | Interrupt => false
  end.

(** The (text, label) pairs, and the attachments, of a successfully
    analysed message; none for an error-tagged outcome. *)
Definition pairs_of (a : arrival) : list (string * string) :=
  match a with
  | Outcome (res, error) =>
      if truthy error then []
      else match res !! "entities" with
           | Some (VEntities ents) => ents
           | _ => []
           end
  | Interrupt => []
  end.

Definition attachments_of (a : arrival) : list AttachmentMetadata :=
  match a with
  | Outcome (res, error) =>
      if truthy error then []
      else match res !! "attachments" with
           | Some (VAttachments atts) => atts
           | _ => []
           end
  | Interrupt => []
  end.

Definition succeeded (a : arrival) : bool :=
  match a with
  | Outcome (_, error) => negb (truthy error)
  | Interrupt => false
  end.

Definition entities_produced (stream : list arrival) : nat :=
  sum_list_with (λ a, length (pairs_of a)) stream.

Definition attachments_produced (stream : list arrival) : nat :=
  sum_list_with (λ a, length (attachments_of a)) stream.

Definition messages_succeeded (stream : list arrival) : nat :=
  length (List.filter succeeded stream).

(** The FileReport a path resolves to: the only one with that path, when
    the lookup is answered. *)
Definition link_of (s : Session) (filepath : pyval) : option FileReport :=
  match query_file_report_one s filepath with
  | inr fr => Some fr
  | inl _ => None
  end.

(** Everything the run has built and not lost: durable rows, staged rows
    and buffered entities. *)
Definition ledger (st : State) : list Row :=
  committed (session st) ++ pending (session st)
    ++ (REntity <$> new_entities st).

(** The two log records of a skipped outcome. *)
Definition skipped (mid fp : pyval) (error : option string) (st : State)
  : State :=
  emit (Log DEBUG (SkippedDetail fp mid error))
       (emit (Log INFO (SkippingMessage mid fp)) st).

(** The state after the progress test of a successful outcome. *)
Definition reported (cfg : Config) (st : State) : State :=
  if msg_count st `mod` MSG_PROGRESS_STEP cfg =? 0
  then emit (UpdateProgress (MSG_PROGRESS_STEP cfg)) st
  else st.

(** The state in which a cancelled run is left: three log records, the
    shutdown of the pool by the handler, and the one on leaving [with]. *)
Definition cancelled (st : State) : State :=
  emit PoolTerminate
    (emit PoolJoin
      (emit PoolTerminate
        (emit (Log INFO TerminatingWorkers)
          (emit (Log INFO PartialResultsWritten)
            (emit (Log WARNING CancellingRunningTask) st))))).

Definition no_commit_failure (db : nat → option Exception) : Prop :=
  ∀ n, db n = None.

(** The calls the loop makes to the progress callback: one, with the
    step, for each outcome that is successful and whose index is a
    multiple of the step. *)
Fixpoint in_loop_calls (cfg : Config) (i : Z) (stream : list arrival)
  : list Z :=
  match stream with
  | [] => []
  | a :: rest =>
      (if succeeded a && (i `mod` MSG_PROGRESS_STEP cfg =? 0)
       then [MSG_PROGRESS_STEP cfg] else [])
      ++ in_loop_calls cfg (i + 1) rest
  end.

(** ** Sample runs *)

Definition sample_report : FileReport := mkFileReport 1 "/a/x.pst".

Definition sample_session : Session := mkSession [sample_report] [] [] 0 0.

Definition finds (ents : list (string * string)) : Language :=
  λ _, inr ents.

Definition fails (msg : string) : Language :=
  λ _, inl (mkException "ValueError" msg).

(** The outcome of a message of [/a/x.pst] whose analysis returns. *)
Definition analysed (message_id : Z) (atts : list AttachmentMetadata)
    (ents : list (string * string)) : gmap string pyval * option string :=
  process_message "/a/x.pst" message_id "Alice went to Rome" atts
                  (finds ents) 10 11.

(** The outcome of a message of [/a/x.pst] whose analysis raises an
    exception with the given text. *)
Definition failed (message_id : Z) (msg : string)
  : gmap string pyval * option string :=
  process_message "/a/x.pst" message_id "Alice went to Rome" []
                  (fails msg) 10 11.

Definition always_commits : nat → option Exception := λ _, None.

Definition never_commits : nat → option Exception :=
  λ _, Some (mkException "OperationalError" "database is locked").

Definition always_answers : Session → pyval → option Exception := λ _ _, None.

Definition never_answers : Session → pyval → option Exception :=
  λ _ _, Some (mkException "OperationalError" "database is locked").


(** The state a call of [extract_entities] ends in, whether it returns
    or raises. *)
Definition final_state (cfg : Config) (db : nat → option Exception)
    (s : Session) (stream : list arrival) : State :=
  (extract_entities cfg db s stream).2.

(** An arrival that is the outcome of [process_message] on some job, the
    analysis not having raised an exception with an empty text. *)
Definition job_outcome (a : arrival) : Prop :=
  ∃ filepath message_id message attachments (spacy_model : Language)
    t_start t_end,
    a = Outcome (process_message filepath message_id message attachments
                                 spacy_model t_start t_end)
    ∧ ∀ exc, spacy_model message = inl exc → exc_str exc ≠ "".

(** ** Loading a spaCy model *)

(** [needle in hay] on Python strings. *)
Fixpoint contains (needle hay : string) : bool :=
  String.prefix needle hay
  || match hay with
     | EmptyString => false
     | String _ rest => contains needle rest
     end.

(** A loaded [Language] object, as far as this module touches it. *)
Record SpacyModel : Type := mkSpacyModel {
  model_name : string;
  max_length : Z
}.

(** What a call of [spacy.load] does: it returns a model, raises an
    [OSError] (or a subclass of it), or raises another exception. *)
Inductive load_result : Type :=
| Loaded (m : SpacyModel)
| LoadOSError (exc : Exception)
| LoadRaises (exc : Exception).

(** What a call of [spacy.cli.download] does: it returns, exits
    ([SystemExit]), or raises an exception. *)
Inductive download_result : Type :=
| DownloadDone
| DownloadExits
| DownloadRaises (exc : Exception).

(** The world [load_spacy_model] runs in: the answer of the first
    [spacy.load], of the download, of the [spacy.load] that follows a
    download, and of [pkg_resources.get_distribution(name).version]. *)
Record SpacyEnv : Type := mkSpacyEnv {
  first_load : load_result;
  download : download_result;
  second_load : load_result;
  distribution_version : Exception + string
}.

Inductive load_event : Type :=
| UnableToLoad (name : string)
| Downloading (name : string)
| DownloadCall (name : string) (direct : bool)
| UnableToInstall (name : string)
| ReloadPkgResources
| LoadException (exc : Exception)
| UnableToGetVersion (name : string) (exc : Exception).

(** How [load_spacy_model] ends: with its pair, or raising. *)
Inductive load_outcome : Type :=
| LoadReturn (spacy_model : option SpacyModel) (version : option string)
| LoadPropagate (exc : Exception).

(** Lines 127-139 of entities.py: the version lookup, the length limit
    and the return. *)
Definition finish_load (cfg : Config) (env : SpacyEnv)
    (spacy_model_name : string) (spacy_model : SpacyModel)
    (log : list load_event) : load_outcome * list load_event :=
  let '(version, log) :=
    match distribution_version env with
    | inr v => (Some v, log)
    | inl exc => (None, log ++ [UnableToGetVersion spacy_model_name exc])
    end in
  (LoadReturn (Some (mkSpacyModel (model_name spacy_model)
                                  (RATOM_SPACY_MODEL_MAX_LENGTH cfg)))
              version,
   log).

(** [load_spacy_model] (entities.py, lines 91-139; core.py, lines 88-136,
    has the same body). *)
Definition load_spacy_model (cfg : Config) (env : SpacyEnv)
    (spacy_model_name : string) : load_outcome * list load_event :=
  match first_load env with
  | Loaded spacy_model => finish_load cfg env spacy_model_name spacy_model []
  | LoadRaises exc => (LoadPropagate exc, [])
  | LoadOSError exc =>
      let log := [UnableToLoad spacy_model_name] in
      if contains "E050" (exc_str exc) then
        let log := log ++ [Downloading spacy_model_name;
                           DownloadCall spacy_model_name false] in
        match download env with
        | DownloadExits =>
            (LoadReturn None None, log ++ [UnableToInstall spacy_model_name])
        | DownloadRaises exc' => (LoadPropagate exc', log)
        | DownloadDone =>
            let log := log ++ [ReloadPkgResources] in
            match second_load env with
            | Loaded spacy_model =>
                finish_load cfg env spacy_model_name spacy_model log
            | LoadOSError exc' | LoadRaises exc' => (LoadPropagate exc', log)
            end
        end
      else (LoadReturn None None, log ++ [LoadException exc])
  end.

Definition is_download (e : load_event) : bool :=
  match e with DownloadCall _ _ => true | _ => false end.

(** ** The released spaCy models *)

(** [s.split(sep, maxsplit=1)] for a separator of one character: the
    text before the first separator and the text after it, or [None]
    when [s] has no separator (the list has then a single element). *)
Fixpoint split_once (sep : Ascii.ascii) (s : string)
  : option (string * string) :=
  match s with
  | EmptyString => None
  | String c rest =>
      if Ascii.eqb c sep then Some (EmptyString, rest)
      else match split_once sep rest with
           | Some (before, after) => Some (String c before, after)
           | None => None
           end
  end.

(** The character [-]. *)
Definition dash : Ascii.ascii := Ascii.ascii_of_nat 45.

(** Lines 41-53 of entities.py. *)
Definition SPACY_MODEL_NAMES : list string :=
  [ "de_core_news_sm"; "es_core_news_sm"; "es_core_news_md";
    "pt_core_news_sm"; "it_core_news_sm"; "nl_core_news_sm";
    "en_core_web_sm"; "en_core_web_md"; "en_core_web_lg";
    "fr_core_news_sm"; "fr_core_news_md" ].

(** Unpacking a list of one element into two names. *)
Definition ValueError : Exception :=
  mkException "ValueError" "not enough values to unpack (expected 2, got 1)".

(** A release of the GitHub API, with the two fields this code reads. *)
Record Release : Type := mkRelease {
  release_name : string;
  tag_name : string
}.

(** A response of [requests.get]: its [ok] flag, the releases of its
    JSON content and the [next] link, if any. *)
Record Response : Type := mkResponse {
  ok : bool;
  content : list Release;
  next_url : option string
}.

Definition first_page : string :=
  "https://api.github.com/repos/explosion/spacy-models/releases?page=1&per_page=100".

(** Lines 67-74 of core.py, for one release. *)
Definition add_release (releases : gmap string (list string)) (r : Release)
  : Exception + gmap string (list string) :=
  match split_once dash (tag_name r) with
  | None => inl ValueError
  | Some (name, version) =>
      if contains "a" version || contains "b" version then inr releases
      else inr (<[name := default [] (releases !! name) ++ [version]]>
                  releases)
  end.

Fixpoint add_releases (releases : gmap string (list string))
    (rs : list Release) : Exception + gmap string (list string) :=
  match rs with
  | [] => inr releases
  | r :: rs =>
      match add_release releases r with
      | inl exc => inl exc
      | inr releases => add_releases releases rs
      end
  end.

(** How the [while] loop of [get_spacy_models] ends. *)
Inductive pages_result : Type :=
| PagesDone (releases : gmap string (list string))
| PagesHTTPError
| PagesRaise (exc : Exception)
| PagesOutOfFuel.

(** Lines 60-80 of core.py.  [web] is what [requests.get] answers, or
    the exception it raises, for a URL; the links of the pages may form a
    cycle, so the loop is given fuel, one unit per request. *)
Fixpoint fetch_pages (web : string → Exception + Response) (fuel : nat)
    (paginated_url : string) (releases : gmap string (list string))
  : pages_result :=
  if String.eqb paginated_url "" then PagesDone releases
  else
    match fuel with
    | O => PagesOutOfFuel
    | S fuel =>
        match web paginated_url with
        | inl exc => PagesRaise exc
        | inr response =>
            if negb (ok response) then PagesHTTPError
            else
              match add_releases releases (content response) with
              | inl exc => PagesRaise exc
              | inr releases =>
                  match next_url response with
                  | None => PagesDone releases
                  | Some url => fetch_pages web fuel url releases
                  end
              end
        end
    end.

Definition no_releases : gmap string (list string) :=
  list_to_map ((λ name, (name, [])) <$> SPACY_MODEL_NAMES).

(** [get_spacy_models] (core.py, lines 53-85): [None] when the fuel runs
    out, else the dict it returns or the exception it raises. *)
Definition get_spacy_models (web : string → Exception + Response)
    (fuel : nat) : option (Exception + gmap string (list string)) :=
  match fetch_pages web fuel first_page ∅ with
  | PagesDone releases => Some (inr releases)
  | PagesHTTPError => Some (inr no_releases)
  | PagesRaise exc => Some (inl exc)
  | PagesOutOfFuel => None
  end.

(** The releases of the pages the loop goes through, in order. *)
Fixpoint visited (web : string → Exception + Response) (fuel : nat)
    (url : string) : list Release :=
  if String.eqb url "" then []
  else
    match fuel with
    | O => []
    | S fuel =>
        match web url with
        | inl _ => []
        | inr response =>
            content response
            ++ match next_url response with
               | None => []
               | Some url => visited web fuel url
               end
        end
    end.

(** The pages the links lead through from [url], when they end: at a
    page without a [next] link, or with one that is the empty string
    (the [while] test is then false). *)
Inductive page_chain (web : string → Exception + Response)
  : string → list Response → Prop :=
| chain_end : page_chain web "" []
| chain_last (url : string) (response : Response) :
    url ≠ "" →
    web url = inr response →
    next_url response = None →
    page_chain web url [response]
| chain_next (url next : string) (response : Response)
    (pages : list Response) :
    url ≠ "" →
    web url = inr response →
    next_url response = Some next →
    page_chain web next pages →
    page_chain web url (response :: pages).

(** The versions a list of releases has for a model name, in order,
    without those that contain an [a] or a [b]. *)
Definition versions_of (name : string) (rs : list Release) : list string :=
  omap (λ r, match split_once dash (tag_name r) with
             | Some (n, version) =>
                 if String.eqb n name
                    && negb (contains "a" version || contains "b" version)
                 then Some version else None
             | None => None
             end) rs.

(** ** Version strings *)

(** A Python [str] as the list of its code points. *)
Definition pystr : Type := list N.

(** The code point of [.]. *)
Definition dot : N := 46%N.

(** The regular expressions the version pattern is made of. *)
Inductive regex : Type :=
| Digit
| Char (c : N)
| Seq (r1 r2 : regex)
| Plus (r : regex).

(** [\d+(?:\.\d+)+] (utils.py, line 73). *)
Definition version_pattern : regex :=
  Seq (Plus Digit) (Plus (Seq (Char dot) (Plus Digit))).

(** What [click] raises on a rejected value. *)
Inductive click_error : Type :=
| BadParameter (message : pystr).

Section Version.

(** [\d] on a [str] pattern: the decimal digits of Unicode. *)
Variable decimal : N → bool.

(** The texts a regular expression matches. *)
Inductive matches : regex → pystr → Prop :=
| matches_digit c : decimal c = true → matches Digit [c]
| matches_char c : matches (Char c) [c]
| matches_seq r1 r2 s1 s2 :
    matches r1 s1 → matches r2 s2 → matches (Seq r1 r2) (s1 ++ s2)
| matches_plus_one r s : matches r s → matches (Plus r) s
| matches_plus_more r s1 s2 :
    matches r s1 → matches (Plus r) s2 → matches (Plus r) (s1 ++ s2).

Fixpoint skip_digits (s : pystr) : pystr :=
  match s with
  | c :: rest => if decimal c then skip_digits rest else s
  | [] => []
  end.

(** [version_pattern.match(value)] is not [None]: digits, then a dot and
    a digit, from the start of the value. *)
Definition version_prefix (value : pystr) : bool :=
  match value with
  | c :: rest =>
      decimal c
      && match skip_digits rest with
         | d :: e :: _ => (d =? dot)%N && decimal e
         | _ => false
         end
  | [] => false
  end.

(** [validate_version_string] (utils.py, lines 65-78); the context and
    the parameter are not used. *)
Definition validate_version_string (value : option pystr)
  : click_error + option pystr :=
  match value with
  | None => inr None
  | Some v => if version_prefix v then inr (Some v) else inl (BadParameter v)
  end.

End Version.

(** The decimal digits of ASCII, [0] to [9]. *)
Definition ascii_decimal (c : N) : bool := (48 <=? c)%N && (c <=? 57)%N.

(** ** Installing a spaCy model *)

(** The world [install_spacy_model] runs in: the version
    [get_installed_model_version] finds, what [spacy.cli.download] does,
    the version of the distribution found after the download, and
    [packaging.version.parse], which gives a version in canonical form or
    raises. *)
Record InstallEnv : Type := mkInstallEnv {
  installed_version : option string;
  install_download : download_result;
  confirmed_version : Exception + string;
  parse : string → Exception + string
}.

Inductive install_event : Type :=
| EchoAlreadyInstalled (model installed : string)
| EchoPleaseSpecify (model : string)
| InstallDownload (name : string) (direct : bool)
| EchoUnableToInstall (name : string)
| InstallReload
| EchoUnableToConfirm (exc : Exception)
| EchoVersionsDiffer (installed version : string)
| EchoInstalled (model installed : string).

Inductive install_outcome : Type :=
| InstallReturn (status : Z)
| InstallPropagate (exc : Exception).

(** [install_spacy_model] (utils.py, lines 125-194). *)
Definition install_spacy_model (env : InstallEnv) (model : string)
    (version : option string) (upgrade : bool)
  : install_outcome * list install_event :=
  if negb (truthy version) && negb upgrade && truthy (installed_version env)
  then
    (InstallReturn 0,
     [EchoAlreadyInstalled model (default "" (installed_version env));
      EchoPleaseSpecify model])
  else
    let '(version_suffix, direct_download) :=
      match version with
      | Some v => if truthy version then ("-" +:+ v, true) else ("", false)
      | None => ("", false)
      end in
    let name := model +:+ version_suffix in
    let log := [InstallDownload name direct_download] in
    match install_download env with
    | DownloadExits =>
        (InstallReturn (-1), log ++ [EchoUnableToInstall name])
    | DownloadRaises exc => (InstallPropagate exc, log)
    | DownloadDone =>
        let log := log ++ [InstallReload] in
        match confirmed_version env with
        | inl exc => (InstallReturn (-1), log ++ [EchoUnableToConfirm exc])
        | inr installed =>
            match version with
            | Some v =>
                if truthy version then
                  match parse env v with
                  | inl exc => (InstallPropagate exc, log)
                  | inr wanted =>
                      match parse env installed with
                      | inl exc => (InstallPropagate exc, log)
                      | inr found =>
                          if String.eqb wanted found
                          then (InstallReturn 0,
                                log ++ [EchoInstalled model installed])
                          else (InstallReturn (-1),
                                log ++ [EchoVersionsDiffer installed v])
                      end
                  end
                else (InstallReturn 0, log ++ [EchoInstalled model installed])
            | None => (InstallReturn 0, log ++ [EchoInstalled model installed])
            end
        end
    end.

(** ** Listing the spaCy models *)

(** [s.rsplit(sep, maxsplit=1)] for a separator of one character: the
    text before the last separator and the text after it, or [None] when
    [s] has no separator. *)
Fixpoint rsplit_once (sep : Ascii.ascii) (s : string)
  : option (string * string) :=
  match s with
  | EmptyString => None
  | String c rest =>
      match rsplit_once sep rest with
      | Some (before, after) => Some (String c before, after)
      | None => if Ascii.eqb c sep then Some (EmptyString, rest) else None
      end
  end.

(** Lines 106-109 of utils.py, for one release. *)
Definition add_listing (releases : gmap string string) (r : Release)
  : Exception + gmap string string :=
  match rsplit_once dash (release_name r) with
  | None => inl ValueError
  | Some (name, version) =>
      let versions :=
        if truthy (releases !! name)
        then default "" (releases !! name) +:+ ", " +:+ version
        else version in
      inr (<[name := versions]> releases)
  end.

Fixpoint add_listings (releases : gmap string string) (rs : list Release)
  : Exception + gmap string string :=
  match rs with
  | [] => inr releases
  | r :: rs =>
      match add_listing releases r with
      | inl exc => inl exc
      | inr releases => add_listings releases rs
      end
  end.

(** The table handed to [tabulate]: a list of rows of three cells, a
    cell being a string or [None]. *)
Definition table_header : list (option string) :=
  [Some "spaCy model"; Some "installed version"; Some "available versions"].

(** [get_installed_model_version] (utils.py, lines 81-89) as the world
    answers it for a name: the version of the installed distribution,
    [None] when [get_distribution] raises [DistributionNotFound], the
    only exception that is caught, or the exception it raises otherwise
    (a name that is no valid requirement, as the empty name). *)
Definition installed_versions : Type := string → Exception + option string.

(** Lines 117-118 of utils.py: one row per model in the order of the
    list, the names being looked up one after the other; the first
    lookup that raises ends the function. *)
Fixpoint table_rows (installed : installed_versions)
    (releases : list (string * string))
  : Exception + list (list (option string)) :=
  match releases with
  | [] => inr []
  | release :: releases =>
      match installed release.1 with
      | inl exc => inl exc
      | inr version =>
          match table_rows installed releases with
          | inl exc => inl exc
          | inr rows =>
              inr ([Some release.1; version; Some release.2] :: rows)
          end
      end
  end.

Inductive list_outcome : Type :=
| ListReturn (status : Z)
| ListPropagate (exc : Exception).

(** [list_spacy_models] (utils.py, lines 92-122): its status, or the
    exception it raises, and the table it prints, if it prints one.
    [response] is what [requests.get] does and [installed] is
    [get_installed_model_version]. *)
Definition list_spacy_models (response : Exception + Response)
    (installed : installed_versions)
  : list_outcome * option (list (list (option string))) :=
  match response with
  | inl exc => (ListPropagate exc, None)
  | inr response =>
      if negb (ok response) then (ListReturn (-1), None)
      else
        match add_listings ∅ (content response) with
        | inl exc => (ListPropagate exc, None)
        | inr releases =>
            let releases :=
              merge_sort (λ x y : string * string, Is_true (String.leb x.1 y.1))
                         (map_to_list releases) in
            match table_rows installed releases with
            | inl exc => (ListPropagate exc, None)
            | inr rows => (ListReturn 0, Some (table_header :: rows))
            end
        end
  end.

(** The versions a list of releases has for a model name, a version
    being what follows the last dash of the name of a release. *)
Definition listed_versions (name : string) (rs : list Release)
  : list string :=
  omap (λ r, match rsplit_once dash (release_name r) with
             | Some (n, version) =>
                 if String.eqb n name then Some version else None
             | None => None
             end) rs.

(** ** Sample worlds *)

(** Two pages of releases, the first with an alpha release. *)
Definition sample_web (url : string) : Exception + Response :=
  if String.eqb url first_page then
    inr (mkResponse true
           [mkRelease "en_core_web_sm-2.1.0" "en_core_web_sm-2.1.0";
            mkRelease "en_core_web_sm-2.1.0a7" "en_core_web_sm-2.1.0a7";
            mkRelease "de_core_news_sm-2.1.0" "de_core_news_sm-2.1.0"]
           (Some "page2"))
  else if String.eqb url "page2" then
    inr (mkResponse true
           [mkRelease "en_core_web_sm-2.2.0" "en_core_web_sm-2.2.0"] None)
  else inl (mkException "ConnectionError" "unreachable").

(** The same first page, followed by a page that is an HTTP error. *)
Definition failing_web (url : string) : Exception + Response :=
  if String.eqb url "page2" then inr (mkResponse false [] None)
  else sample_web url.

(** A first page with a tag that has no dash. *)
Definition malformed_web (url : string) : Exception + Response :=
  inr (mkResponse true
         [mkRelease "en_core_web_sm-2.1.0" "en_core_web_sm-2.1.0";
          mkRelease "nightly" "nightly"] None).

Definition sample_response : Response :=
  mkResponse true
    [mkRelease "en_core_web_sm-2.1.0" "en_core_web_sm-2.1.0";
     mkRelease "de_core_news_sm-2.1.0" "de_core_news_sm-2.1.0";
     mkRelease "en_core_web_sm-2.2.0" "en_core_web_sm-2.2.0"] None.

(** A release without a model name before its dash. *)
Definition nameless_response : Response :=
  mkResponse true
    [mkRelease "en_core_web_sm-2.1.0" "en_core_web_sm-2.1.0";
     mkRelease "-5" "-5"] None.

(** No model is installed, and the empty name is no valid requirement. *)
Definition nothing_installed : installed_versions :=
  λ name, if String.eqb name ""
          then inl (mkException "ValueError" "invalid requirement")
          else inr None.

(** A world in which the model is installed in version 2.1.0 and any
    download brings version 2.2.0. *)
Definition sample_install_env : InstallEnv :=
  mkInstallEnv (Some "2.1.0") DownloadDone (inr "2.2.0") (λ v, inr v).

(** ** Records and sessions *)

Lemma count_rows_app (p : Row → bool) (l1 l2 : list Row) :
  count_rows p (l1 ++ l2) = (count_rows p l1 + count_rows p l2)%nat.
Proof. unfold count_rows. by rewrite List.filter_app, length_app. Qed.

Lemma count_rows_fmap {A : Type} (p : Row → bool) (f : A → Row) (b : bool)
    (l : list A) :
  (∀ x, p (f x) = b) →
  count_rows p (f <$> l) = if b then length l else 0%nat.
Proof.
  intros Hp. unfold count_rows. induction l as [|x l IH].
  - by destruct b.
  - rewrite fmap_cons. simpl. rewrite Hp. destruct b; simpl; by rewrite IH.
Qed.

Lemma count_rows_cons (p : Row → bool) (r : Row) (l : list Row) :
  count_rows p (r :: l) = ((if p r then 1 else 0) + count_rows p l)%nat.
Proof. unfold count_rows. simpl. by destruct (p r). Qed.

Lemma count_message_attachment_rows (m : Message)
    (link : option FileReport) (l : list AttachmentMetadata) :
  count_rows is_message ((λ a, RAttachment (mkAttachment a m link)) <$> l)
  = 0%nat.
Proof. by rewrite (count_rows_fmap _ _ false). Qed.

Lemma count_attachment_attachment_rows (m : Message)
    (link : option FileReport) (l : list AttachmentMetadata) :
  count_rows is_attachment ((λ a, RAttachment (mkAttachment a m link)) <$> l)
  = length l.
Proof. by rewrite (count_rows_fmap _ _ true). Qed.

Lemma count_entity_attachment_rows (m : Message)
    (link : option FileReport) (l : list AttachmentMetadata) :
  count_rows is_entity ((λ a, RAttachment (mkAttachment a m link)) <$> l)
  = 0%nat.
Proof. by rewrite (count_rows_fmap _ _ false). Qed.

Lemma count_entity_fmap (l : list Entity) :
  count_rows is_entity (REntity <$> l) = length l.
Proof.
  unfold count_rows. induction l as [|e l IH]; [done|].
  rewrite fmap_cons. simpl. by f_equal.
Qed.

Lemma count_message_fmap_entity (l : list Entity) :
  count_rows is_message (REntity <$> l) = 0%nat.
Proof. unfold count_rows. by induction l. Qed.

Lemma count_attachment_fmap_entity (l : list Entity) :
  count_rows is_attachment (REntity <$> l) = 0%nat.
Proof. unfold count_rows. by induction l. Qed.

(** ** One outcome *)

Lemma Message_init_timestamps (message_id : pyval) (res : gmap string pyval) :
  extra_keys res = ∅ →
  Message_init message_id
    (delete "attachments" (delete "filepath"
      (delete "message_id" (delete "entities" res))))
  = inr (mkMessage message_id (res !! "processing_start_time")
                   (res !! "processing_end_time") None).
Proof.
  intros Hextra. unfold Message_init.
  rewrite decide_True by exact Hextra.
  by rewrite !lookup_delete_ne.
Qed.

(** A successful, well-formed outcome is staged without raising: one
    Message linked to what its path resolves to, one Attachment per
    metadata entry, both pending at once, and one buffered Entity per
    pair. *)
Lemma stage_message_success (res : gmap string pyval) (st : State)
    (ents : list (string * string)) (mid fp : pyval)
    (atts : list AttachmentMetadata) :
  res !! "entities" = Some (VEntities ents) →
  res !! "message_id" = Some mid →
  res !! "filepath" = Some fp →
  res !! "attachments" = Some (VAttachments atts) →
  extra_keys res = ∅ →
  let link := link_of (session st) fp in
  let m := mkMessage mid (res !! "processing_start_time")
                     (res !! "processing_end_time") link in
  ∃ st',
    stage_message res st = Next st'
    ∧ msg_count st' = msg_count st
    ∧ new_entities st'
      = new_entities st ++ ((λ e, mkEntity e.1 e.2 fp m link) <$> ents)
    ∧ pending (session st')
      = pending (session st)
          ++ RMessage m :: ((λ a, RAttachment (mkAttachment a m link)) <$> atts)
    ∧ committed (session st') = committed (session st)
    ∧ commits (session st') = commits (session st)
    ∧ attempts (session st') = attempts (session st)
    ∧ file_reports (session st') = file_reports (session st)
    ∧ trace st'
      = trace st ++ match query_file_report_one (session st) fp with
                    | inr _ => []
                    | inl exc => [Log INFO (UnableToLink mid exc)]
                    end.
Proof.
  intros Hents Hmid Hfp Hatts Hextra link m.
  unfold stage_message, pop.
  rewrite !lookup_delete_ne by done.
  rewrite Hents, Hmid, Hfp, Hatts.
  rewrite Message_init_timestamps by done.
  subst m link. unfold link_of.
  destruct (query_file_report_one (session st) fp) as [exc|fr]; simpl;
    eexists; (split; [reflexivity|]); simpl;
    rewrite <- ?app_assoc, ?app_nil_r; simpl; done.
Qed.

Lemma well_formed_success (res : gmap string pyval) (error : option string) :
  truthy error = false →
  well_formed_outcome (res, error) = true →
  ∃ ents mid fp atts,
    res !! "entities" = Some (VEntities ents)
    ∧ res !! "message_id" = Some mid
    ∧ res !! "filepath" = Some fp
    ∧ res !! "attachments" = Some (VAttachments atts)
    ∧ extra_keys res = ∅.
Proof.
  intros Herr. unfold well_formed_outcome. rewrite Herr.
  destruct (res !! "entities") as [[| | | |ents]|]; try discriminate.
  destruct (res !! "message_id") as [mid|]; try discriminate.
  destruct (res !! "filepath") as [fp|]; try discriminate.
  destruct (res !! "attachments") as [[| | |atts|]|]; try discriminate.
  intros Hextra%bool_decide_eq_true. by exists ents, mid, fp, atts.
Qed.

Lemma well_formed_error (res : gmap string pyval) (error : option string) :
  truthy error = true →
  well_formed_outcome (res, error) = true →
  ∃ mid fp,
    res !! "message_id" = Some mid
    ∧ res !! "filepath" = Some fp
    ∧ res !! "error" = None.
Proof.
  intros Herr. unfold well_formed_outcome. rewrite Herr.
  destruct (res !! "message_id") as [mid|]; try discriminate.
  destruct (res !! "filepath") as [fp|]; try discriminate.
  destruct (res !! "error"); try discriminate.
  intros _. by exists mid, fp.
Qed.

Lemma skip_message_logged (res : gmap string pyval) (error : option string)
    (mid fp : pyval) (st : State) :
  res !! "message_id" = Some mid →
  res !! "filepath" = Some fp →
  res !! "error" = None →
  skip_message res error st = Next (skipped mid fp error st).
Proof. intros Hmid Hfp Herr. unfold skip_message. by rewrite Hmid, Hfp, Herr. Qed.

Lemma report_step_next (cfg : Config) (st : State) :
  MSG_PROGRESS_STEP cfg ≠ 0 →
  report_step cfg st = Next (reported cfg st).
Proof.
  intros HS. unfold report_step, reported.
  destruct (Z.eqb_spec (MSG_PROGRESS_STEP cfg) 0) as [|_]; [done|].
  by destruct (_ =? 0).
Qed.

Lemma flush_below (cfg : Config) (db : nat → option Exception) (st : State) :
  Z.of_nat (length (new_entities st)) < RATOM_DB_COMMIT_BATCH_SIZE cfg →
  flush_if_full cfg db st = st.
Proof.
  intros Hlt. unfold flush_if_full.
  by destruct (Z.ltb_spec (Z.of_nat (length (new_entities st)))
                          (RATOM_DB_COMMIT_BATCH_SIZE cfg)); [|lia].
Qed.

Lemma flush_committed (cfg : Config) (db : nat → option Exception) (st : State) :
  RATOM_DB_COMMIT_BATCH_SIZE cfg ≤ Z.of_nat (length (new_entities st)) →
  db (attempts (session st)) = None →
  flush_if_full cfg db st
  = mkState (mkSession (file_reports (session st)) []
               (committed (session st)
                  ++ pending (session st) ++ (REntity <$> new_entities st))
               (S (commits (session st))) (S (attempts (session st))))
            [] (msg_count st) (trace st).
Proof.
  intros Hge Hdb. unfold flush_if_full.
  destruct (Z.ltb_spec (Z.of_nat (length (new_entities st)))
                       (RATOM_DB_COMMIT_BATCH_SIZE cfg)); [lia|].
  unfold session_commit. simpl. by rewrite Hdb.
Qed.

Lemma flush_rolled_back (cfg : Config) (db : nat → option Exception)
    (st : State) (exc : Exception) :
  RATOM_DB_COMMIT_BATCH_SIZE cfg ≤ Z.of_nat (length (new_entities st)) →
  db (attempts (session st)) = Some exc →
  flush_if_full cfg db st
  = mkState (mkSession (file_reports (session st)) []
               (committed (session st))
               (commits (session st)) (S (attempts (session st))))
            [] (msg_count st) (trace st ++ [Log ERROR (ExceptionRecord exc)]).
Proof.
  intros Hge Hdb. unfold flush_if_full.
  destruct (Z.ltb_spec (Z.of_nat (length (new_entities st)))
                       (RATOM_DB_COMMIT_BATCH_SIZE cfg)); [lia|].
  unfold session_commit. simpl. by rewrite Hdb.
Qed.

Lemma flush_msg_count (cfg : Config) (db : nat → option Exception) (st : State) :
  msg_count (flush_if_full cfg db st) = msg_count st.
Proof.
  unfold flush_if_full. destruct (_ <? _); [done|].
  unfold session_commit. simpl. by destruct (db _).
Qed.

Lemma flush_file_reports (cfg : Config) (db : nat → option Exception)
    (st : State) :
  file_reports (session (flush_if_full cfg db st)) = file_reports (session st).
Proof.
  unfold flush_if_full. destruct (_ <? _); [done|].
  unfold session_commit. simpl. by destruct (db _).
Qed.

Lemma reported_msg_count (cfg : Config) (st : State) :
  msg_count (reported cfg st) = msg_count st.
Proof. unfold reported. by destruct (_ =? 0). Qed.

Lemma reported_session (cfg : Config) (st : State) :
  session (reported cfg st) = session st.
Proof. unfold reported. by destruct (_ =? 0). Qed.

Lemma reported_new_entities (cfg : Config) (st : State) :
  new_entities (reported cfg st) = new_entities st.
Proof. unfold reported. by destruct (_ =? 0). Qed.

(** A well-formed outcome never makes the loop body raise. *)
Lemma loop_body_well_formed (cfg : Config) (db : nat → option Exception)
    (worker_output : gmap string pyval * option string) (st : State) :
  MSG_PROGRESS_STEP cfg ≠ 0 →
  well_formed_outcome worker_output = true →
  ∃ st', loop_body cfg db worker_output st = Next st'
         ∧ msg_count st' = msg_count st
         ∧ file_reports (session st') = file_reports (session st).
Proof.
  intros HS Hwf. destruct worker_output as [res error]. unfold loop_body.
  destruct (truthy error) eqn:Herr.
  - destruct (well_formed_error _ _ Herr Hwf) as (mid & fp & Hmid & Hfp & Hno).
    rewrite (skip_message_logged _ _ _ _ _ Hmid Hfp Hno). by eexists.
  - destruct (well_formed_success _ _ Herr Hwf)
      as (ents & mid & fp & atts & Hents & Hmid & Hfp & Hatts & Hextra).
    destruct (stage_message_success res st _ _ _ _ Hents Hmid Hfp Hatts Hextra)
      as (st1 & -> & Hcount & _ & _ & _ & _ & _ & Hfrs & _).
    rewrite report_step_next by done. eexists. split; [done|].
    by rewrite reported_msg_count, reported_session, flush_msg_count,
               flush_file_reports.
Qed.

Lemma loop_body_error_step (cfg : Config) (db : nat → option Exception)
    (res : gmap string pyval) (error : option string) (st : State) :
  truthy error = true →
  well_formed_outcome (res, error) = true →
  ∃ mid fp, loop_body cfg db (res, error) st = Next (skipped mid fp error st).
Proof.
  intros Herr Hwf.
  destruct (well_formed_error _ _ Herr Hwf) as (mid & fp & Hmid & Hfp & Hno).
  exists mid, fp. unfold loop_body. rewrite Herr.
  by apply skip_message_logged.
Qed.

Lemma loop_body_success_step (cfg : Config) (db : nat → option Exception)
    (res : gmap string pyval) (error : option string) (st : State) :
  MSG_PROGRESS_STEP cfg ≠ 0 →
  truthy error = false →
  well_formed_outcome (res, error) = true →
  ∃ st1 m link fp,
    stage_message res st = Next st1
    ∧ loop_body cfg db (res, error) st
      = Next (reported cfg (flush_if_full cfg db st1))
    ∧ msg_count st1 = msg_count st
    ∧ new_entities st1
      = new_entities st
          ++ ((λ e, mkEntity e.1 e.2 fp m link) <$> pairs_of (Outcome (res, error)))
    ∧ pending (session st1)
      = pending (session st)
          ++ RMessage m
             :: ((λ a, RAttachment (mkAttachment a m link))
                   <$> attachments_of (Outcome (res, error)))
    ∧ committed (session st1) = committed (session st)
    ∧ commits (session st1) = commits (session st)
    ∧ attempts (session st1) = attempts (session st).
Proof.
  intros HS Herr Hwf.
  destruct (well_formed_success _ _ Herr Hwf)
    as (ents & mid & fp & atts & Hents & Hmid & Hfp & Hatts & Hextra).
  destruct (stage_message_success res st _ _ _ _ Hents Hmid Hfp Hatts Hextra)
    as (st1 & Hst1 & Hcount & Hbuf & Hpend & Hcomm & Hcommits & Hatt & _ & _).
  eexists st1, _, _, fp. split; [exact Hst1|].
  unfold loop_body, pairs_of, attachments_of.
  rewrite Herr, Hst1, Hents, Hatts, report_step_next by done.
  by repeat split.
Qed.

(** ** The loop *)

Lemma consume_app (cfg : Config) (db : nat → option Exception)
    (pre post : list arrival) (i : Z) (st : State) :
  consume cfg db i (pre ++ post) st
  = match consume cfg db i pre st with
    | Next st' => consume cfg db (i + Z.of_nat (length pre)) post st'
    | Raise t st' => Raise t st'
    end.
Proof.
  revert i st. induction pre as [|a pre IH]; intros i st.
  - simpl. by rewrite Z.add_0_r.
  - destruct a as [out|]; [|done]. simpl.
    destruct (loop_body cfg db out (with_msg_count i st)) as [st1|t st1]; [|done].
    rewrite IH. by replace (i + 1 + Z.of_nat (length pre))
                      with (i + Z.pos (Pos.of_succ_nat (length pre))) by lia.
Qed.

(** A stream of well-formed outcomes is drained without raising. *)
Lemma consume_well_formed (cfg : Config) (db : nat → option Exception)
    (stream : list arrival) (i : Z) (st : State) :
  MSG_PROGRESS_STEP cfg ≠ 0 →
  Forall (λ a, well_formed a = true) stream →
  ∃ st', consume cfg db i stream st = Next st'.
Proof.
  intros HS Hwf. revert i st.
  induction Hwf as [|a stream Ha _ IH]; intros i st; [by eexists|].
  destruct a as [out|]; [|done]. simpl.
  destruct (loop_body_well_formed cfg db out (with_msg_count i st) HS Ha)
    as (st1 & -> & _). apply IH.
Qed.

(** Induction along the loop: a property of the outcomes seen so far and
    of the state, kept by every iteration, holds when the stream is
    drained. *)
Lemma consume_preserves (cfg : Config) (db : nat → option Exception)
    (W : arrival → Prop) (Q : list arrival → State → Prop) :
  (∀ seen out st st',
      Q seen st →
      W (Outcome out) →
      loop_body cfg db out (with_msg_count (1 + Z.of_nat (length seen)) st)
        = Next st' →
      Q (seen ++ [Outcome out]) st') →
  ∀ stream seen st st',
    Forall W stream →
    Q seen st →
    consume cfg db (1 + Z.of_nat (length seen)) stream st = Next st' →
    Q (seen ++ stream) st'.
Proof.
  intros Hstep stream. induction stream as [|a stream IH];
    intros seen st st' HW HQ Hrun.
  - simpl in Hrun. injection Hrun as <-. by rewrite app_nil_r.
  - apply Forall_cons in HW as [Ha HW].
    destruct a as [out|]; [|done]. simpl in Hrun.
    destruct (loop_body cfg db out _) as [st1|] eqn:Hbody; [|done].
    replace (seen ++ Outcome out :: stream)
      with ((seen ++ [Outcome out]) ++ stream) by by rewrite <- app_assoc.
    apply (IH _ st1); [done|by eapply Hstep|].
    rewrite length_app. simpl.
    by replace (1 + Z.of_nat (length seen + 1)) with
      (1 + Z.of_nat (length seen) + 1) by lia.
Qed.

Lemma consume_msg_count (cfg : Config) (db : nat → option Exception)
    (stream : list arrival) (st st' : State) :
  MSG_PROGRESS_STEP cfg ≠ 0 →
  Forall (λ a, well_formed a = true) stream →
  msg_count st = 0 →
  consume cfg db 1 stream st = Next st' →
  msg_count st' = Z.of_nat (length stream).
Proof.
  intros HS Hwf H0 Hrun.
  apply (consume_preserves cfg db (λ a, well_formed a = true)
           (λ seen st, msg_count st = Z.of_nat (length seen))
        ) with (seen := []) (st := st) (stream := stream); try done.
  intros seen out st0 st1 _ Hout Hbody.
  destruct (loop_body_well_formed cfg db out
              (with_msg_count (1 + Z.of_nat (length seen)) st0) HS Hout)
    as (st2 & Hbody2 & Hcount & _).
  rewrite Hbody in Hbody2. injection Hbody2 as <-.
  rewrite Hcount, length_app. simpl. lia.
Qed.

(** ** The job function *)

(** C9: the record [process_message] returns always has the keys
    filepath, message_id, processing_start_time and attachments; when the
    analysis raises, it has neither an entities nor a processing_end_time
    key and the error slot holds [str(exc)]; when the analysis returns, it
    has both and the error slot is [None]; so both keys are present
    exactly when the error slot is [None]. *)
Theorem process_message_record_keys
    (filepath : string) (message_id : Z) (message : string)
    (attachments : list AttachmentMetadata) (spacy_model : Language)
    (t_start t_end : datetime) :
  let out := process_message filepath message_id message attachments
                             spacy_model t_start t_end in
  (out.1 !! "filepath" = Some (VStr filepath)
   ∧ out.1 !! "message_id" = Some (VInt message_id)
   ∧ out.1 !! "processing_start_time" = Some (VDatetime t_start)
   ∧ out.1 !! "attachments" = Some (VAttachments attachments))
  ∧ match spacy_model message with
    | inl exc =>
        out.2 = Some (exc_str exc)
        ∧ out.1 !! "entities" = None
        ∧ out.1 !! "processing_end_time" = None
    | inr ents =>
        out.2 = None
        ∧ out.1 !! "entities" = Some (VEntities ents)
        ∧ out.1 !! "processing_end_time" = Some (VDatetime t_end)
    end
  ∧ (out.2 = None
     ↔ is_Some (out.1 !! "entities")
       ∧ is_Some (out.1 !! "processing_end_time")).
Proof.
  unfold process_message.
  destruct (spacy_model message) as [exc|ents]; simpl.
  - repeat split; try (by simplify_map_eq).
    intros [[v Hv] _]. by simplify_map_eq.
  - repeat split; try (by simplify_map_eq); by eexists; simplify_map_eq.
Qed.

(** ** One iteration of the controller *)

(** C5: an outcome whose error slot is truthy is logged (one record at
    info level, one at debug level) and left: the session and the entity
    buffer are the ones before it, so no Message, Attachment or Entity is
    created; the counter has the index of the skipped outcome; the loop
    goes on with the next outcome. *)
Theorem error_outcome_skipped (cfg : Config) (db : nat → option Exception)
    (res : gmap string pyval) (error : option string) (mid fp : pyval)
    (i : Z) (rest : list arrival) (st : State) :
  truthy error = true →
  res !! "message_id" = Some mid →
  res !! "filepath" = Some fp →
  res !! "error" = None →
  consume cfg db i (Outcome (res, error) :: rest) st
  = consume cfg db (i + 1) rest
      (mkState (session st) (new_entities st) i
               (trace st ++ [Log INFO (SkippingMessage mid fp);
                             Log DEBUG (SkippedDetail fp mid error)])).
Proof.
  intros Herr Hmid Hfp Hno. simpl. rewrite Herr.
  rewrite (skip_message_logged _ _ _ _ _ Hmid Hfp Hno).
  unfold skipped, emit. simpl. by rewrite <- app_assoc.
Qed.

(** C6: when the commit of a batch-threshold flush fails, the exception
    is logged and the session rolled back; the batch is gone from the
    buffer and from the pending rows, nothing of it is durable, [commit]
    was called once (no retry), and the loop goes on with the next
    outcome from an empty buffer. *)
Theorem failed_commit_drops_batch (cfg : Config) (db : nat → option Exception)
    (res : gmap string pyval) (error : option string) (exc : Exception)
    (i : Z) (rest : list arrival) (st : State) :
  MSG_PROGRESS_STEP cfg ≠ 0 →
  truthy error = false →
  well_formed_outcome (res, error) = true →
  RATOM_DB_COMMIT_BATCH_SIZE cfg
    ≤ Z.of_nat (length (new_entities st)
                + length (pairs_of (Outcome (res, error)))) →
  db (attempts (session st)) = Some exc →
  ∃ st1 st2,
    stage_message res (with_msg_count i st) = Next st1
    ∧ consume cfg db i (Outcome (res, error) :: rest) st
      = consume cfg db (i + 1) rest st2
    ∧ new_entities st2 = []
    ∧ pending (session st2) = []
    ∧ committed (session st2) = committed (session st)
    ∧ commits (session st2) = commits (session st)
    ∧ attempts (session st2) = S (attempts (session st))
    ∧ msg_count st2 = i
    ∧ trace st2
      = trace st1 ++ Log ERROR (ExceptionRecord exc)
          :: (if i `mod` MSG_PROGRESS_STEP cfg =? 0
              then [UpdateProgress (MSG_PROGRESS_STEP cfg)] else []).
Proof.
  intros HS Herr Hwf Hfull Hdb.
  destruct (loop_body_success_step cfg db res error (with_msg_count i st)
              HS Herr Hwf)
    as (st1 & m & link & fp & Hstage & Hbody & Hcount & Hbuf & Hpend
        & Hcomm & Hcommits & Hatt).
  simpl in Hcount, Hbuf, Hpend, Hcomm, Hcommits, Hatt.
  eexists st1, _. split; [exact Hstage|].
  split; [simpl; simpl in Hbody; by rewrite Hbody|].
  rewrite (flush_rolled_back cfg db st1 exc).
  - unfold reported. simpl. rewrite Hcount.
    destruct (_ =? 0); simpl; rewrite ?Hcomm, ?Hcommits, ?Hatt;
      repeat split; try done; by rewrite <- app_assoc.
  - rewrite Hbuf, length_app, length_fmap. exact Hfull.
  - by rewrite Hatt.
Qed.

(** C8: for a successful outcome, when the lookup is answered and
    exactly one FileReport has the path of the outcome, the Message is
    linked to it and nothing is logged; when the lookup fails, whatever
    the table holds, or finds no match, or finds several, the exception
    is caught, the link is null and one record is logged at info level
    with the exception; in every case the flush and the progress report
    follow and the loop goes on with the next outcome. *)
Theorem message_link_resolution (cfg : Config) (db : nat → option Exception)
    (res : gmap string pyval) (error : option string) (fp : string)
    (i : Z) (rest : list arrival) (st : State) :
  MSG_PROGRESS_STEP cfg ≠ 0 →
  truthy error = false →
  well_formed_outcome (res, error) = true →
  res !! "filepath" = Some (VStr fp) →
  let found := filter (λ r, path r = fp) (file_reports (session st)) in
  let fault := lookup_fault (session st) (VStr fp) in
  ∃ st1 st2 m mid,
    stage_message res (with_msg_count i st) = Next st1
    ∧ res !! "message_id" = Some mid
    ∧ pff_identifier m = mid
    ∧ pending (session st1)
      = pending (session st)
          ++ RMessage m
             :: ((λ a, RAttachment (mkAttachment a m (msg_file_report m)))
                   <$> attachments_of (Outcome (res, error)))
    ∧ (∀ fr, fault = None → found = [fr] →
         msg_file_report m = Some fr ∧ trace st1 = trace st)
    ∧ (∀ exc, fault = Some exc →
         msg_file_report m = None
         ∧ trace st1 = trace st ++ [Log INFO (UnableToLink mid exc)])
    ∧ (fault = None → found = [] →
         msg_file_report m = None
         ∧ trace st1
           = trace st ++ [Log INFO (UnableToLink mid NoResultFound)])
    ∧ (fault = None → (2 ≤ length found)%nat →
         msg_file_report m = None
         ∧ trace st1
           = trace st ++ [Log INFO (UnableToLink mid MultipleResultsFound)])
    ∧ report_step cfg (flush_if_full cfg db st1) = Next st2
    ∧ consume cfg db i (Outcome (res, error) :: rest) st
      = consume cfg db (i + 1) rest st2.
Proof.
  intros HS Herr Hwf Hpath found fault.
  destruct (well_formed_success _ _ Herr Hwf)
    as (ents & mid & fp' & atts & Hents & Hmid & Hfp & Hatts & Hextra).
  rewrite Hpath in Hfp. injection Hfp as <-.
  destruct (stage_message_success res (with_msg_count i st)
              _ _ _ _ Hents Hmid Hpath Hatts Hextra)
    as (st1 & Hstage & _ & _ & Hpend & _ & _ & _ & _ & Htrace).
  simpl in Hpend, Htrace.
  eexists st1, _,
    (mkMessage mid (res !! "processing_start_time")
               (res !! "processing_end_time")
               (link_of (session st) (VStr fp))), mid.
  split; [exact Hstage|]. split; [exact Hmid|].
  split; [reflexivity|]. split.
  { unfold attachments_of. rewrite Herr, Hatts. exact Hpend. }
  unfold link_of, query_file_report_one in *.
  fold found fault in Htrace |- *.
  split; [|split; [|split; [|split; [|split]]]].
  - intros fr Hfault Hone. rewrite Hfault, Hone in Htrace |- *. simpl.
    by rewrite app_nil_r in Htrace.
  - intros exc Hfault. rewrite Hfault in Htrace |- *. by split.
  - intros Hfault Hnone. rewrite Hfault, Hnone in Htrace |- *. by split.
  - intros Hfault Hmany. rewrite Hfault in Htrace |- *.
    destruct found as [|fr [|fr' found']]; simpl in *; try lia. by split.
  - by apply report_step_next.
  - simpl. rewrite Herr, Hstage. by rewrite report_step_next.
Qed.

(** ** Whole runs *)

(** C4: when the interrupt arrives while outcomes are being consumed,
    the handler logs, terminates the pool and joins it, the buffered
    entities are not staged (session and buffer are the ones the loop
    had reached) and [extract_entities] returns 1; when the stream is
    drained it returns 0; in both cases it returns a status and raises
    nothing. *)
Theorem cancellation_status (cfg : Config) (db : nat → option Exception)
    (s : Session) (pre rest : list arrival) :
  MSG_PROGRESS_STEP cfg ≠ 0 →
  Forall (λ a, well_formed a = true) pre →
  ∃ st final done,
    consume cfg db 1 pre (initial_state cfg s) = Next st
    ∧ extract_entities cfg db s (pre ++ Interrupt :: rest) = (Return 1, final)
    ∧ session final = session st
    ∧ new_entities final = new_entities st
    ∧ trace final
      = trace st ++ [Log WARNING CancellingRunningTask;
                     Log INFO PartialResultsWritten;
                     Log INFO TerminatingWorkers;
                     PoolTerminate; PoolJoin; PoolTerminate]
    ∧ extract_entities cfg db s pre = (Return 0, done).
Proof.
  intros HS Hwf.
  destruct (consume_well_formed cfg db pre 1 (initial_state cfg s) HS Hwf)
    as (st & Hrun).
  exists st, (cancelled st). eexists.
  split; [exact Hrun|].
  unfold extract_entities, try_block.
  rewrite consume_app, Hrun. simpl.
  destruct (Z.eqb_spec (MSG_PROGRESS_STEP cfg) 0) as [|_]; [done|].
  repeat split; try reflexivity.
  unfold cancelled, emit. simpl. by rewrite <- !app_assoc.
Qed.

(** C10: when the number of outcomes is an exact multiple of the
    progress step, the call made after the loop has increment 0 and the
    run returns 0; on an empty stream the callback is called exactly
    once, with increment 0, and the run returns 0. *)
Theorem final_progress_zero (cfg : Config) (db : nat → option Exception)
    (s : Session) (stream : list arrival) :
  MSG_PROGRESS_STEP cfg ≠ 0 →
  Forall (λ a, well_formed a = true) stream →
  (MSG_PROGRESS_STEP cfg | Z.of_nat (length stream)) →
  (∃ st final,
     consume cfg db 1 stream (initial_state cfg s) = Next st
     ∧ extract_entities cfg db s stream = (Return 0, final)
     ∧ trace final = trace st ++ [UpdateProgress 0; PoolTerminate])
  ∧ (extract_entities cfg db s []).1 = Return 0
  ∧ progress_calls (trace (extract_entities cfg db s []).2) = [0].
Proof.
  intros HS Hwf Hdiv. split.
  - destruct (consume_well_formed cfg db stream 1 (initial_state cfg s) HS Hwf)
      as (st & Hrun).
    assert (msg_count st = Z.of_nat (length stream)) as Hcount
      by exact (consume_msg_count cfg db stream (initial_state cfg s) st
                  HS Hwf eq_refl Hrun).
    exists st. eexists. split; [exact Hrun|].
    unfold extract_entities, try_block. rewrite Hrun.
    destruct (Z.eqb_spec (MSG_PROGRESS_STEP cfg) 0) as [|_]; [done|].
    split; [reflexivity|]. simpl. rewrite Hcount.
    apply Z.mod_divide in Hdiv; [|done]. rewrite Hdiv.
    by rewrite <- app_assoc.
  - unfold extract_entities, try_block. simpl.
    destruct (Z.eqb_spec (MSG_PROGRESS_STEP cfg) 0) as [|_]; [done|].
    simpl. by rewrite Zmod_0_l.
Qed.

(** ** Conservation of rows *)

Lemma ledger_flush (cfg : Config) (db : nat → option Exception) (st : State) :
  no_commit_failure db →
  ledger (flush_if_full cfg db st) = ledger st.
Proof.
  intros Hdb.
  destruct (Z.lt_ge_cases (Z.of_nat (length (new_entities st)))
                          (RATOM_DB_COMMIT_BATCH_SIZE cfg)).
  - by rewrite flush_below.
  - rewrite flush_committed by done. unfold ledger. simpl.
    by rewrite app_nil_r.
Qed.

Lemma ledger_reported (cfg : Config) (st : State) :
  ledger (reported cfg st) = ledger st.
Proof. unfold reported. by destruct (_ =? 0). Qed.

Lemma messages_succeeded_snoc (seen : list arrival) (a : arrival) :
  messages_succeeded (seen ++ [a])
  = (messages_succeeded seen + if succeeded a then 1 else 0)%nat.
Proof.
  unfold messages_succeeded. rewrite List.filter_app, length_app. simpl.
  by destruct (succeeded a).
Qed.

Lemma entities_produced_snoc (seen : list arrival) (a : arrival) :
  entities_produced (seen ++ [a])
  = (entities_produced seen + length (pairs_of a))%nat.
Proof. unfold entities_produced. rewrite sum_list_with_app. simpl. lia. Qed.

Lemma attachments_produced_snoc (seen : list arrival) (a : arrival) :
  attachments_produced (seen ++ [a])
  = (attachments_produced seen + length (attachments_of a))%nat.
Proof. unfold attachments_produced. rewrite sum_list_with_app. simpl. lia. Qed.

(** What one iteration adds to the rows the run holds, when no commit
    fails. *)
Lemma loop_body_ledger (cfg : Config) (db : nat → option Exception)
    (out : gmap string pyval * option string) (st st' : State) :
  MSG_PROGRESS_STEP cfg ≠ 0 →
  no_commit_failure db →
  well_formed_outcome out = true →
  loop_body cfg db out st = Next st' →
  count_rows is_message (ledger st')
  = (count_rows is_message (ledger st)
     + if succeeded (Outcome out) then 1 else 0)%nat
  ∧ count_rows is_attachment (ledger st')
    = (count_rows is_attachment (ledger st)
       + length (attachments_of (Outcome out)))%nat
  ∧ count_rows is_entity (ledger st')
    = (count_rows is_entity (ledger st)
       + length (pairs_of (Outcome out)))%nat.
Proof.
  intros HS Hdb Hwf Hbody. destruct out as [res error].
  destruct (truthy error) eqn:Herr.
  - destruct (loop_body_error_step cfg db res error st Herr Hwf)
      as (mid & fp & Hskip).
    rewrite Hskip in Hbody. injection Hbody as <-.
    unfold succeeded, attachments_of, pairs_of. rewrite Herr. simpl.
    unfold ledger. simpl. lia.
  - destruct (loop_body_success_step cfg db res error st HS Herr Hwf)
      as (st1 & m & link & fp & _ & Hbody1 & _ & Hbuf & Hpend & Hcomm & _).
    rewrite Hbody1 in Hbody. injection Hbody as <-.
    rewrite ledger_reported, ledger_flush by done.
    unfold ledger. rewrite Hbuf, Hpend, Hcomm, fmap_app.
    rewrite !count_rows_app.
    rewrite !count_rows_cons, count_message_attachment_rows,
            count_attachment_attachment_rows, count_entity_attachment_rows.
    rewrite !count_entity_fmap, !count_message_fmap_entity,
            !count_attachment_fmap_entity, ?length_app, ?length_fmap.
    unfold succeeded. rewrite Herr. simpl. lia.
Qed.

Lemma consume_ledger (cfg : Config) (db : nat → option Exception)
    (stream : list arrival) (st st' : State) :
  MSG_PROGRESS_STEP cfg ≠ 0 →
  no_commit_failure db →
  Forall (λ a, well_formed a = true) stream →
  consume cfg db 1 stream st = Next st' →
  count_rows is_message (ledger st')
  = (count_rows is_message (ledger st) + messages_succeeded stream)%nat
  ∧ count_rows is_attachment (ledger st')
    = (count_rows is_attachment (ledger st) + attachments_produced stream)%nat
  ∧ count_rows is_entity (ledger st')
    = (count_rows is_entity (ledger st) + entities_produced stream)%nat.
Proof.
  intros HS Hdb Hwf Hrun.
  apply (consume_preserves cfg db (λ a, well_formed a = true)
           (λ seen st',
              count_rows is_message (ledger st')
              = (count_rows is_message (ledger st) + messages_succeeded seen)%nat
              ∧ count_rows is_attachment (ledger st')
                = (count_rows is_attachment (ledger st)
                   + attachments_produced seen)%nat
              ∧ count_rows is_entity (ledger st')
                = (count_rows is_entity (ledger st)
                   + entities_produced seen)%nat))
    with (seen := []) (st := st) (stream := stream); try done.
  - intros seen out st0 st1 (Hm & Ha & He) Hout Hbody.
    destruct (loop_body_ledger cfg db out _ st1 HS Hdb Hout Hbody)
      as (Hm1 & Ha1 & He1).
    rewrite messages_succeeded_snoc, attachments_produced_snoc,
            entities_produced_snoc.
    unfold ledger in *. simpl in *. lia.
Qed.

(** ** Batches *)





(** C1, as the code has it: when the stream is drained,
    [extract_entities] stages the entities left in the buffer and calls
    [commit] no more: they are pending, and it is for the owner of the
    session to commit them.  Absent commit failures, the Entity rows that
    are durable or pending when it returns 0 number the pairs of the
    successfully analysed messages, and so do the durable ones once the
    owner's commit has gone through. *)
Theorem entity_count_conservation (cfg : Config) (db : nat → option Exception)
    (s : Session) (stream : list arrival) :
  MSG_PROGRESS_STEP cfg ≠ 0 →
  no_commit_failure db →
  Forall (λ a, well_formed a = true) stream →
  ∃ st final s',
    consume cfg db 1 stream (initial_state cfg s) = Next st
    ∧ extract_entities cfg db s stream = (Return 0, final)
    ∧ pending (session final)
      = pending (session st) ++ (REntity <$> new_entities st)
    ∧ committed (session final) = committed (session st)
    ∧ attempts (session final) = attempts (session st)
    ∧ count_rows is_entity (committed (session final) ++ pending (session final))
      = (count_rows is_entity (committed s ++ pending s)
         + entities_produced stream)%nat
    ∧ session_commit db (session final) = inr s'
    ∧ count_rows is_entity (committed s')
      = (count_rows is_entity (committed s ++ pending s)
         + entities_produced stream)%nat.
Proof.
  intros HS Hdb Hwf.
  destruct (consume_well_formed cfg db stream 1 (initial_state cfg s) HS Hwf)
    as (st & Hrun).
  destruct (consume_ledger cfg db stream _ st HS Hdb Hwf Hrun)
    as (_ & _ & He).
  unfold ledger in He. simpl in He. rewrite app_nil_r in He.
  exists st. eexists. eexists. split; [exact Hrun|].
  unfold extract_entities, try_block. rewrite Hrun.
  destruct (Z.eqb_spec (MSG_PROGRESS_STEP cfg) 0) as [|_]; [done|].
  split; [reflexivity|]. simpl.
  unfold session_commit. simpl. rewrite Hdb.
  repeat split; try done.
Qed.

(** ** Progress reports *)

Lemma progress_calls_app (tr1 tr2 : list event) :
  progress_calls (tr1 ++ tr2) = progress_calls tr1 ++ progress_calls tr2.
Proof. unfold progress_calls. apply omap_app. Qed.

Lemma flush_progress (cfg : Config) (db : nat → option Exception) (st : State) :
  progress_calls (trace (flush_if_full cfg db st)) = progress_calls (trace st).
Proof.
  unfold flush_if_full. destruct (_ <? _); [done|].
  unfold session_commit. simpl. destruct (db _); simpl; [|done].
  rewrite progress_calls_app. simpl. by rewrite app_nil_r.
Qed.

(** What the callback has received when the loop is over: the calls of
    the loop, which an error-tagged outcome never makes. *)
Lemma consume_progress (cfg : Config) (db : nat → option Exception)
    (stream : list arrival) (i : Z) (st st' : State) :
  MSG_PROGRESS_STEP cfg ≠ 0 →
  Forall (λ a, well_formed a = true) stream →
  consume cfg db i stream st = Next st' →
  progress_calls (trace st')
  = progress_calls (trace st) ++ in_loop_calls cfg i stream.
Proof.
  intros HS Hwf. revert i st.
  induction Hwf as [|a stream Ha _ IH]; intros i st Hrun.
  - simpl in Hrun. injection Hrun as <-. simpl. by rewrite app_nil_r.
  - destruct a as [[res error]|]; [|done]. simpl in Hrun.
    destruct (truthy error) eqn:Herr.
    + destruct (well_formed_error _ _ Herr Ha) as (mid & fp & Hmid & Hfp & Hno).
      rewrite (skip_message_logged _ _ _ _ _ Hmid Hfp Hno) in Hrun.
      rewrite (IH _ _ Hrun). simpl. rewrite Herr. simpl.
      by rewrite !progress_calls_app, !app_nil_r.
    + destruct (well_formed_success _ _ Herr Ha)
        as (ents & mid & fp & atts & Hents & Hmid & Hfp & Hatts & Hextra).
      destruct (stage_message_success res (with_msg_count i st)
                  _ _ _ _ Hents Hmid Hfp Hatts Hextra)
        as (st1 & Hstage & Hcount & _ & _ & _ & _ & _ & _ & Htrace).
      rewrite Hstage, report_step_next in Hrun by done.
      rewrite (IH _ _ Hrun). simpl. rewrite Herr. simpl.
      rewrite app_assoc. f_equal.
      unfold reported. rewrite flush_msg_count, Hcount. simpl.
      assert (progress_calls (trace st1) = progress_calls (trace st)) as Hsame.
      { rewrite Htrace. simpl. rewrite progress_calls_app.
        destruct (query_file_report_one _ _); simpl; by rewrite app_nil_r. }
      destruct (i `mod` MSG_PROGRESS_STEP cfg =? 0); simpl.
      * rewrite progress_calls_app, flush_progress, Hsame. done.
      * rewrite flush_progress, Hsame. by rewrite app_nil_r.
Qed.

(** The cadence of a drained run: the calls of the loop, then one call
    with the remainder of the number of outcomes. *)
Lemma progress_cadence (cfg : Config) (db : nat → option Exception)
    (s : Session) (stream : list arrival) :
  MSG_PROGRESS_STEP cfg ≠ 0 →
  Forall (λ a, well_formed a = true) stream →
  progress_calls (trace (extract_entities cfg db s stream).2)
  = in_loop_calls cfg 1 stream
      ++ [Z.of_nat (length stream) `mod` MSG_PROGRESS_STEP cfg].
Proof.
  intros HS Hwf.
  destruct (consume_well_formed cfg db stream 1 (initial_state cfg s) HS Hwf)
    as (st & Hrun).
  assert (msg_count st = Z.of_nat (length stream)) as Hcount
    by exact (consume_msg_count cfg db stream (initial_state cfg s) st
                HS Hwf eq_refl Hrun).
  pose proof (consume_progress cfg db stream 1 _ st HS Hwf Hrun) as Hcalls.
  unfold extract_entities, try_block. rewrite Hrun.
  destruct (Z.eqb_spec (MSG_PROGRESS_STEP cfg) 0) as [|_]; [done|].
  simpl. rewrite !progress_calls_app, Hcalls, Hcount. simpl.
  by rewrite app_nil_r.
Qed.

(** ** What every run keeps *)

(** One iteration, whether it falls through or raises, leaves the
    file_report table alone and only ever adds to the durable rows. *)
Lemma loop_body_durable (cfg : Config) (db : nat → option Exception)
    (out : gmap string pyval * option string) (st : State) :
  match loop_body cfg db out st with
  | Next st' | Raise _ st' =>
      file_reports (session st') = file_reports (session st)
      ∧ committed (session st) `prefix_of` committed (session st')
  end.
Proof.
  destruct out as [res error].
  unfold loop_body, skip_message, stage_message, pop, report_step,
         flush_if_full, session_commit.
  repeat case_match; simplify_eq; simpl;
    (split; [done|]); try done; by apply prefix_app_r.
Qed.

Lemma consume_durable (cfg : Config) (db : nat → option Exception)
    (stream : list arrival) (i : Z) (st : State) :
  match consume cfg db i stream st with
  | Next st' | Raise _ st' =>
      file_reports (session st') = file_reports (session st)
      ∧ committed (session st) `prefix_of` committed (session st')
  end.
Proof.
  revert i st. induction stream as [|a stream IH]; intros i st; [done|].
  destruct a as [out|]; [|done]. simpl.
  pose proof (loop_body_durable cfg db out (with_msg_count i st)) as Hbody.
  destruct (loop_body cfg db out (with_msg_count i st)) as [st1|t st1];
    [|exact Hbody].
  destruct Hbody as [Hfrs Hpre]. simpl in Hfrs, Hpre.
  specialize (IH (i + 1) st1).
  destruct (consume cfg db (i + 1) stream st1) as [st2|t st2];
    destruct IH as [Hfrs2 Hpre2];
    (split; [congruence|by etrans]).
Qed.

(** Whatever arrives (outcomes of any shape, the interrupt), whatever
    the store answers, and whether the call returns or raises,
    [extract_entities] never touches the file_report table and never
    removes a durable row: the rows committed before it are a prefix of
    the rows committed after it. *)
Theorem durable_rows_kept (cfg : Config) (db : nat → option Exception)
    (s : Session) (stream : list arrival) :
  file_reports (session (final_state cfg db s stream)) = file_reports s
  ∧ committed s `prefix_of` committed (session (final_state cfg db s stream)).
Proof.
  unfold final_state, extract_entities, try_block.
  pose proof (consume_durable cfg db stream 1 (initial_state cfg s)) as Hrun.
  destruct (consume cfg db 1 stream (initial_state cfg s)) as [st|[exc|] st];
    simpl in Hrun; try exact Hrun.
  destruct (MSG_PROGRESS_STEP cfg =? 0); exact Hrun.
Qed.


(** A successful, well-formed outcome, whatever the store answers: the
    rows it builds, and the three ways the iteration can end (buffer
    below the threshold, batch committed, batch rolled back). *)
Lemma loop_body_success_rows (cfg : Config) (db : nat → option Exception)
    (res : gmap string pyval) (error : option string) (st : State) :
  MSG_PROGRESS_STEP cfg ≠ 0 →
  truthy error = false →
  well_formed_outcome (res, error) = true →
  ∃ mid fp st',
    let link := link_of (session st) fp in
    let m := mkMessage mid (res !! "processing_start_time")
                       (res !! "processing_end_time") link in
    let rows :=
      RMessage m
      :: ((λ a, RAttachment (mkAttachment a m link))
            <$> attachments_of (Outcome (res, error))) in
    let news :=
      (λ e, mkEntity e.1 e.2 fp m link) <$> pairs_of (Outcome (res, error)) in
    loop_body cfg db (res, error) st = Next st'
    ∧ ((Z.of_nat (length (new_entities st ++ news))
          < RATOM_DB_COMMIT_BATCH_SIZE cfg
        ∧ new_entities st' = new_entities st ++ news
        ∧ pending (session st') = pending (session st) ++ rows
        ∧ committed (session st') = committed (session st)
        ∧ attempts (session st') = attempts (session st))
       ∨ (RATOM_DB_COMMIT_BATCH_SIZE cfg
            ≤ Z.of_nat (length (new_entities st ++ news))
          ∧ new_entities st' = []
          ∧ pending (session st') = []
          ∧ attempts (session st') = S (attempts (session st))
          ∧ (committed (session st')
             = committed (session st)
                 ++ (pending (session st) ++ rows)
                 ++ (REntity <$> (new_entities st ++ news))
             ∨ committed (session st') = committed (session st)))).
Proof.
  intros HS Herr Hwf.
  destruct (well_formed_success _ _ Herr Hwf)
    as (ents & mid & fp & atts & Hents & Hmid & Hfp & Hatts & Hextra).
  destruct (stage_message_success res st _ _ _ _ Hents Hmid Hfp Hatts Hextra)
    as (st1 & Hstage & _ & Hbuf & Hpend & Hcomm & _ & Hatt & _ & _).
  exists mid, fp. eexists. simpl.
  unfold loop_body, pairs_of, attachments_of.
  rewrite Herr, Hstage, Hents, Hatts, report_step_next by done.
  split; [reflexivity|].
  rewrite reported_session, reported_new_entities, <- Hbuf, <- Hpend.
  destruct (Z.lt_ge_cases (Z.of_nat (length (new_entities st1)))
                          (RATOM_DB_COMMIT_BATCH_SIZE cfg)) as [Hlt|Hge].
  - left. rewrite flush_below by done. by rewrite Hcomm, Hatt.
  - right. destruct (db (attempts (session st1))) as [exc|] eqn:Hdb.
    + rewrite (flush_rolled_back _ _ _ exc) by done. simpl.
      rewrite Hcomm, Hatt. repeat split; try done. by right.
    + rewrite flush_committed by done. simpl.
      rewrite Hcomm, Hatt. repeat split; try done. by left.
Qed.



(** Between two outcomes the buffer is below a positive threshold,
    whether the commits went through or not. *)
Theorem buffer_below_threshold (cfg : Config) (db : nat → option Exception)
    (s : Session) (stream : list arrival) (st : State) :
  MSG_PROGRESS_STEP cfg ≠ 0 →
  0 < RATOM_DB_COMMIT_BATCH_SIZE cfg →
  Forall (λ a, well_formed a = true) stream →
  consume cfg db 1 stream (initial_state cfg s) = Next st →
  Z.of_nat (length (new_entities st)) < RATOM_DB_COMMIT_BATCH_SIZE cfg.
Proof.
  intros HS HB Hwf Hrun.
  apply (consume_preserves cfg db (λ a, well_formed a = true)
           (λ _ st', Z.of_nat (length (new_entities st'))
                     < RATOM_DB_COMMIT_BATCH_SIZE cfg))
    with (seen := []) (st := initial_state cfg s) (stream := stream);
    try done.
  intros seen [res error] st0 st1 Hbuf Hout Hbody.
  destruct (truthy error) eqn:Herr.
  - destruct (loop_body_error_step cfg db res error
                (with_msg_count (1 + Z.of_nat (length seen)) st0) Herr Hout)
      as (mid & fp & Hskip).
    rewrite Hskip in Hbody. by injection Hbody as <-.
  - destruct (loop_body_success_rows cfg db res error
                (with_msg_count (1 + Z.of_nat (length seen)) st0)
                HS Herr Hout)
      as (mid & fp & st2 & Hbody2 & Hcase).
    rewrite Hbody in Hbody2. injection Hbody2 as <-. simpl in Hcase.
    destruct Hcase as [(Hlt & -> & _)|(_ & -> & _)]; [exact Hlt|exact HB].
Qed.

(** With a threshold of zero or less, every successful message is
    followed by a call of [commit], even a message without entities, and
    nothing is ever left in the buffer. *)
Theorem commit_per_message (cfg : Config) (db : nat → option Exception)
    (s : Session) (stream : list arrival) (st : State) :
  MSG_PROGRESS_STEP cfg ≠ 0 →
  RATOM_DB_COMMIT_BATCH_SIZE cfg ≤ 0 →
  Forall (λ a, well_formed a = true) stream →
  consume cfg db 1 stream (initial_state cfg s) = Next st →
  attempts (session st) = (attempts s + messages_succeeded stream)%nat
  ∧ new_entities st = [].
Proof.
  intros HS HB Hwf Hrun.
  apply (consume_preserves cfg db (λ a, well_formed a = true)
           (λ seen st',
              attempts (session st')
              = (attempts s + messages_succeeded seen)%nat
              ∧ new_entities st' = []))
    with (seen := []) (st := initial_state cfg s) (stream := stream);
    try done.
  intros seen [res error] st0 st1 [Hatt Hbuf] Hout Hbody.
  rewrite messages_succeeded_snoc. unfold succeeded.
  destruct (truthy error) eqn:Herr.
  - destruct (loop_body_error_step cfg db res error
                (with_msg_count (1 + Z.of_nat (length seen)) st0) Herr Hout)
      as (mid & fp & Hskip).
    rewrite Hskip in Hbody. injection Hbody as <-. simpl.
    split; [lia|done].
  - destruct (loop_body_success_rows cfg db res error
                (with_msg_count (1 + Z.of_nat (length seen)) st0)
                HS Herr Hout)
      as (mid & fp & st2 & Hbody2 & Hcase).
    rewrite Hbody in Hbody2. injection Hbody2 as <-. simpl in Hcase.
    destruct Hcase as [(Hlt & _)|(_ & -> & _ & -> & _)].
    + lia.
    + simpl. split; [lia|done].
Qed.

(** ** A progress step of zero *)

Lemma consume_zero_step (cfg : Config) (db : nat → option Exception)
    (stream : list arrival) (i : Z) (st : State) :
  MSG_PROGRESS_STEP cfg = 0 →
  Forall (λ a, well_formed a = true) stream →
  (∃ st', consume cfg db i stream st = Next st')
  ∨ (∃ st', consume cfg db i stream st = Raise (Exc ZeroDivisionError) st').
Proof.
  intros HS Hwf. revert i st.
  induction Hwf as [|a stream Ha _ IH]; intros i st; [left; by eexists|].
  destruct a as [[res error]|]; [|done]. simpl.
  destruct (truthy error) eqn:Herr.
  - destruct (well_formed_error _ _ Herr Ha) as (mid & fp & Hmid & Hfp & Hno).
    rewrite (skip_message_logged _ _ _ _ _ Hmid Hfp Hno). apply IH.
  - destruct (well_formed_success _ _ Herr Ha)
      as (ents & mid & fp & atts & Hents & Hmid & Hfp & Hatts & Hextra).
    destruct (stage_message_success res (with_msg_count i st)
                _ _ _ _ Hents Hmid Hfp Hatts Hextra) as (st1 & -> & _).
    unfold report_step. rewrite HS. simpl. right. by eexists.
Qed.

(** With a progress step of zero, no run whose stream is drained returns
    a status: the modulo of the progress test raises
    [ZeroDivisionError], at the first successful outcome or, if there is
    none (an empty stream included), after the loop. *)
Theorem zero_progress_step_raises (cfg : Config)
    (db : nat → option Exception) (s : Session) (stream : list arrival) :
  MSG_PROGRESS_STEP cfg = 0 →
  Forall (λ a, well_formed a = true) stream →
  (extract_entities cfg db s stream).1 = Propagate ZeroDivisionError.
Proof.
  intros HS Hwf. unfold extract_entities, try_block.
  destruct (consume_zero_step cfg db stream 1 (initial_state cfg s) HS Hwf)
    as [(st & ->)|(st & ->)]; [|done].
  by rewrite HS.
Qed.

(** ** From the workers to the controller *)

Lemma process_message_well_formed
    (filepath : string) (message_id : Z) (message : string)
    (attachments : list AttachmentMetadata) (spacy_model : Language)
    (t_start t_end : datetime) :
  (∀ exc, spacy_model message = inl exc → exc_str exc ≠ "") →
  well_formed_outcome (process_message filepath message_id message
                                       attachments spacy_model t_start t_end)
  = true.
Proof.
  intros Htext. unfold process_message.
  destruct (spacy_model message) as [exc|ents] eqn:Hrun.
  - unfold well_formed_outcome.
    assert (truthy (Some (exc_str exc)) = true) as ->.
    { simpl. apply negb_true_iff, String.eqb_neq. by apply Htext. }
    by simplify_map_eq.
  - unfold well_formed_outcome. simpl. simplify_map_eq.
    apply bool_decide_eq_true. apply map_eq. intros k. unfold extra_keys.
    rewrite lookup_empty.
    destruct (decide (k = "processing_end_time")) as [->|];
      [by rewrite lookup_delete_eq|rewrite lookup_delete_ne by done].
    destruct (decide (k = "processing_start_time")) as [->|];
      [by rewrite lookup_delete_eq|rewrite lookup_delete_ne by done].
    destruct (decide (k = "attachments")) as [->|];
      [by rewrite lookup_delete_eq|rewrite lookup_delete_ne by done].
    destruct (decide (k = "filepath")) as [->|];
      [by rewrite lookup_delete_eq|rewrite lookup_delete_ne by done].
    destruct (decide (k = "message_id")) as [->|];
      [by rewrite lookup_delete_eq|rewrite lookup_delete_ne by done].
    destruct (decide (k = "entities")) as [->|];
      [by rewrite lookup_delete_eq|rewrite lookup_delete_ne by done].
    by rewrite !lookup_insert_ne, lookup_empty.
Qed.

(** The controller handles whatever the job function returns: a stream
    made of outcomes of [process_message], in any order and whatever the
    store answers, is drained and [extract_entities] returns 0, provided
    the progress step is not zero and no analysis raised an exception
    with an empty text. *)
Theorem job_outcomes_are_drained (cfg : Config) (db : nat → option Exception)
    (s : Session) (stream : list arrival) :
  MSG_PROGRESS_STEP cfg ≠ 0 →
  Forall job_outcome stream →
  (extract_entities cfg db s stream).1 = Return 0.
Proof.
  intros HS Hjobs.
  assert (Forall (λ a, well_formed a = true) stream) as Hwf.
  { eapply Forall_impl; [exact Hjobs|].
    intros a (fp & mid & msg & atts & model & t0 & t1 & -> & Htext).
    by apply process_message_well_formed. }
  destruct (consume_well_formed cfg db stream 1 (initial_state cfg s) HS Hwf)
    as (st & Hrun).
  unfold extract_entities, try_block. rewrite Hrun.
  by destruct (Z.eqb_spec (MSG_PROGRESS_STEP cfg) 0).
Qed.

(** ** The cadence without failures *)

Lemma in_loop_calls_snoc (cfg : Config) (i : Z) (l : list arrival)
    (a : arrival) :
  in_loop_calls cfg i (l ++ [a])
  = in_loop_calls cfg i l
      ++ (if succeeded a
             && ((i + Z.of_nat (length l)) `mod` MSG_PROGRESS_STEP cfg =? 0)
          then [MSG_PROGRESS_STEP cfg] else []).
Proof.
  revert i. induction l as [|b l IH]; intros i; simpl.
  - by rewrite Z.add_0_r, !app_nil_r.
  - rewrite IH, <- app_assoc.
    by replace (i + 1 + Z.of_nat (length l))
      with (i + Z.of_nat (S (length l))) by lia.
Qed.

Lemma div_next (n d : Z) :
  0 ≤ n → 0 < d →
  (n + 1) / d = n / d + (if (n + 1) `mod` d =? 0 then 1 else 0).
Proof.
  intros Hn Hd.
  pose proof (Z.div_mod (n + 1) d ltac:(lia)) as Hdm.
  pose proof (Z.mod_pos_bound (n + 1) d Hd) as Hbound.
  destruct (Z.eqb_spec ((n + 1) `mod` d) 0) as [Hz|Hnz].
  - assert (n / d = (n + 1) / d - 1) as ->; [|lia].
    symmetry. apply (Z.div_unique n d _ (d - 1)); lia.
  - assert (n / d = (n + 1) / d) as ->; [|lia].
    symmetry. apply (Z.div_unique n d _ ((n + 1) `mod` d - 1)); lia.
Qed.

Lemma in_loop_calls_success (cfg : Config) (l : list arrival) :
  0 < MSG_PROGRESS_STEP cfg →
  Forall (λ a, succeeded a = true) l →
  in_loop_calls cfg 1 l
  = replicate (Z.to_nat (Z.of_nat (length l) / MSG_PROGRESS_STEP cfg))
              (MSG_PROGRESS_STEP cfg).
Proof.
  intros HS. induction l as [|a l IH] using rev_ind; intros Hall.
  - done.
  - apply Forall_app in Hall as [Hl Ha]. rewrite Forall_singleton in Ha.
    rewrite in_loop_calls_snoc, (IH Hl), Ha, length_app. simpl.
    replace (Z.of_nat (length l + 1)) with (Z.of_nat (length l) + 1) by lia.
    replace (1 + Z.of_nat (length l)) with (Z.of_nat (length l) + 1) by lia.
    rewrite (div_next (Z.of_nat (length l))) by lia.
    destruct (_ =? 0).
    + rewrite Z2Nat.inj_add by (try apply Z.div_pos; lia).
      change (Z.to_nat 1) with 1%nat. rewrite Nat.add_1_r.
      by rewrite replicate_S_end.
    + by rewrite Z.add_0_r, app_nil_r.
Qed.

Lemma sum_replicate (n : nat) (d : Z) :
  foldr Z.add 0 (replicate n d) = Z.of_nat n * d.
Proof. induction n as [|n IH]; simpl; [done|]. rewrite IH. lia. Qed.

(** When every outcome is successful and the step S is positive, the
    callback is called ⌊M/S⌋ times with S in the loop and once with
    M mod S after it, M being the number of outcomes; the increments add
    up to M. *)
Theorem success_only_cadence (cfg : Config) (db : nat → option Exception)
    (s : Session) (stream : list arrival) :
  0 < MSG_PROGRESS_STEP cfg →
  Forall (λ a, well_formed a = true) stream →
  Forall (λ a, succeeded a = true) stream →
  let M := Z.of_nat (length stream) in
  let calls := progress_calls (trace (final_state cfg db s stream)) in
  calls = replicate (Z.to_nat (M / MSG_PROGRESS_STEP cfg))
                    (MSG_PROGRESS_STEP cfg)
            ++ [M `mod` MSG_PROGRESS_STEP cfg]
  ∧ foldr Z.add 0 calls = M.
Proof.
  intros HS Hwf Hall M calls.
  assert (MSG_PROGRESS_STEP cfg ≠ 0) as HS0 by lia.
  destruct (consume_well_formed cfg db stream 1 (initial_state cfg s) HS0 Hwf)
    as (st & Hrun).
  assert (msg_count st = M) as Hcount
    by exact (consume_msg_count cfg db stream (initial_state cfg s) st
                HS0 Hwf eq_refl Hrun).
  pose proof (consume_progress cfg db stream 1 _ st HS0 Hwf Hrun) as Hcalls.
  assert (calls = replicate (Z.to_nat (M / MSG_PROGRESS_STEP cfg))
                            (MSG_PROGRESS_STEP cfg)
                    ++ [M `mod` MSG_PROGRESS_STEP cfg]) as Heq.
  { subst calls. unfold final_state, extract_entities, try_block.
    rewrite Hrun.
    destruct (Z.eqb_spec (MSG_PROGRESS_STEP cfg) 0) as [|_]; [done|].
    simpl. rewrite !progress_calls_app, Hcalls, Hcount. simpl.
    by rewrite app_nil_r, in_loop_calls_success. }
  split; [exact Heq|].
  rewrite Heq, foldr_app. simpl.
  assert (∀ (l : list Z) (z : Z), foldr Z.add z l = foldr Z.add 0 l + z)
    as Hshift.
  { intros l z. induction l as [|x l IHl]; simpl; lia. }
  rewrite Hshift, sum_replicate, Z2Nat.id by (apply Z.div_pos; lia).
  pose proof (Z.div_mod M (MSG_PROGRESS_STEP cfg) HS0). lia.
Qed.

(** ** Rows of every kind *)

Lemma messages_succeeded_perm (l l' : list arrival) :
  l ≡ₚ l' → messages_succeeded l = messages_succeeded l'.
Proof.
  unfold messages_succeeded.
  induction 1 as [|x l l' _ IH|x y l|l l' l'' _ IH1 _ IH2]; simpl.
  - done.
  - destruct (succeeded x); simpl; by rewrite IH.
  - by destruct (succeeded x), (succeeded y).
  - by rewrite IH1.
Qed.

Lemma sum_list_with_perm {A : Type} (f : A → nat) (l l' : list A) :
  l ≡ₚ l' → sum_list_with f l = sum_list_with f l'.
Proof.
  induction 1 as [|x l l' _ IH|x y l|l l' l'' _ IH1 _ IH2]; simpl; lia.
Qed.

(** The rows a drained run without commit failure leaves in the
    session, durable or pending, by kind. *)
Lemma final_counts (cfg : Config) (db : nat → option Exception)
    (s : Session) (stream : list arrival) :
  MSG_PROGRESS_STEP cfg ≠ 0 →
  no_commit_failure db →
  Forall (λ a, well_formed a = true) stream →
  let rows := committed (session (final_state cfg db s stream))
              ++ pending (session (final_state cfg db s stream)) in
  count_rows is_message rows
  = (count_rows is_message (committed s ++ pending s)
     + messages_succeeded stream)%nat
  ∧ count_rows is_attachment rows
    = (count_rows is_attachment (committed s ++ pending s)
       + attachments_produced stream)%nat
  ∧ count_rows is_entity rows
    = (count_rows is_entity (committed s ++ pending s)
       + entities_produced stream)%nat.
Proof.
  intros HS Hdb Hwf.
  destruct (consume_well_formed cfg db stream 1 (initial_state cfg s) HS Hwf)
    as (st & Hrun).
  destruct (consume_ledger cfg db stream _ st HS Hdb Hwf Hrun)
    as (Hm & Ha & He).
  unfold ledger in Hm, Ha, He. simpl in Hm, Ha, He.
  rewrite app_nil_r in Hm, Ha, He.
  unfold final_state, extract_entities, try_block. rewrite Hrun.
  destruct (Z.eqb_spec (MSG_PROGRESS_STEP cfg) 0) as [|_]; [done|].
  simpl. by rewrite Hm, Ha, He.
Qed.

(** Every successfully analysed message leaves exactly one Message row
    and one Attachment row per attachment in the session, whether or not
    any entity was found in it; error-tagged outcomes leave none. *)
Theorem rows_per_message (cfg : Config) (db : nat → option Exception)
    (s : Session) (stream : list arrival) :
  MSG_PROGRESS_STEP cfg ≠ 0 →
  no_commit_failure db →
  Forall (λ a, well_formed a = true) stream →
  let rows := committed (session (final_state cfg db s stream))
              ++ pending (session (final_state cfg db s stream)) in
  count_rows is_message rows
  = (count_rows is_message (committed s ++ pending s)
     + messages_succeeded stream)%nat
  ∧ count_rows is_attachment rows
    = (count_rows is_attachment (committed s ++ pending s)
       + attachments_produced stream)%nat.
Proof.
  intros HS Hdb Hwf rows.
  destruct (final_counts cfg db s stream HS Hdb Hwf) as (Hm & Ha & _).
  by split.
Qed.

(** The order in which the pool delivers the outcomes does not change
    what the run leaves in the session: two arrival orders of the same
    outcomes give as many Message, Attachment and Entity rows. *)
Theorem arrival_order_irrelevant (cfg : Config) (db : nat → option Exception)
    (s : Session) (stream stream' : list arrival) :
  MSG_PROGRESS_STEP cfg ≠ 0 →
  no_commit_failure db →
  Forall (λ a, well_formed a = true) stream →
  stream ≡ₚ stream' →
  let rows := committed (session (final_state cfg db s stream))
              ++ pending (session (final_state cfg db s stream)) in
  let rows' := committed (session (final_state cfg db s stream'))
               ++ pending (session (final_state cfg db s stream')) in
  count_rows is_message rows = count_rows is_message rows'
  ∧ count_rows is_attachment rows = count_rows is_attachment rows'
  ∧ count_rows is_entity rows = count_rows is_entity rows'.
Proof.
  intros HS Hdb Hwf Hperm rows rows'.
  assert (Forall (λ a, well_formed a = true) stream') as Hwf'
    by by rewrite <- Hperm.
  destruct (final_counts cfg db s stream HS Hdb Hwf) as (Hm & Ha & He).
  destruct (final_counts cfg db s stream' HS Hdb Hwf') as (Hm' & Ha' & He').
  subst rows rows'. rewrite Hm, Ha, He, Hm', Ha', He'.
  unfold attachments_produced, entities_produced.
  by rewrite (messages_succeeded_perm _ _ Hperm),
             (sum_list_with_perm _ _ _ Hperm),
             (sum_list_with_perm (λ a, length (pairs_of a)) _ _ Hperm).
Qed.

End Pipeline.

(** ** The code at concrete inputs *)

(** C2: [process_message] at a message whose analysis raises an
    exception with an empty text, as [ValueError()] has.  The error slot
    is the empty string, which [if error:] takes for no error: the
    controller handles the record as a success and the [KeyError] of
    [res.pop("entities")] ends the run. *)
Theorem error_slot_empty_string :
  (failed (AttachmentMetadata := unit) 1 "").2 = Some ""
  ∧ truthy (failed (AttachmentMetadata := unit) 1 "").2 = false
  ∧ (extract_entities always_answers default_config always_commits
      sample_session
       [Outcome (failed (AttachmentMetadata := unit) 1 "")]).1
    = Propagate (KeyError "entities").
Proof. vm_compute. by repeat split. Qed.

(** C3: two outcomes with a progress step of 2, the second one tagged
    with an error.  The [continue] of the error branch skips the progress
    test, so the callback is called once, with 0, where the cadence asks
    for a call with 2 and a call with 0; with the same two outcomes in
    the other order the calls are 2 and 0. *)
Theorem progress_step_lost_on_error :
  let cfg := mkConfig 100 10000 2 1000000 in
  let ok := Outcome (analysed (AttachmentMetadata := unit) 1 [] []) in
  let bad := Outcome (failed 2 "bad input") in
  (extract_entities always_answers cfg always_commits
      sample_session [ok; bad]).1 = Return 0
  ∧ progress_calls
      (trace (extract_entities always_answers cfg always_commits
          sample_session [ok; bad]).2)
    = [0]
  ∧ progress_calls
      (trace (extract_entities always_answers cfg always_commits
          sample_session [bad; ok]).2)
    = [2; 0].
Proof. vm_compute. by repeat split. Qed.

(** C1, as stated, fails: one message with one pair, the default
    threshold of 10000.  The run returns 0 without having called [commit]
    and no Entity row is durable, though one pair was produced. *)
Lemma final_commit_missing :
  let stream :=
    [Outcome (analysed (AttachmentMetadata := unit) 1 [] [("Alice", "PERSON")])] in
  let run := extract_entities always_answers default_config always_commits
      sample_session
                              stream in
  run.1 = Return 0
  ∧ attempts (session run.2) = 0%nat
  ∧ entities_produced stream = 1%nat
  ∧ count_rows is_entity (committed (session run.2))
    ≠ entities_produced stream.
Proof. vm_compute. by repeat split. Qed.


(** C8, as stated, fails: the file_report table has exactly one row
    with the path of the outcome, and the store raises when it is
    queried.  The exception is caught, the Message and its Attachment
    are staged without a link and the run returns 0. *)
Lemma unique_match_without_link :
  let s := sample_session (AttachmentMetadata := unit) in
  let out := analysed 1 [tt] [("Alice", "PERSON")] in
  let run := extract_entities never_answers default_config always_commits s
                              [Outcome out] in
  truthy out.2 = false
  ∧ out.1 !! "filepath" = Some (VStr "/a/x.pst")
  ∧ filter (λ r, path r = "/a/x.pst") (file_reports s) = [sample_report]
  ∧ run.1 = Return 0
  ∧ ∃ m,
      List.filter is_message (pending (session run.2)) = [RMessage m]
      ∧ msg_file_report m = None
      ∧ msg_file_report m ≠ Some sample_report.
Proof. vm_compute. repeat split. eexists. by repeat split. Qed.

(** ** The theorems at concrete inputs *)

Lemma process_message_record_keys_witness :
  (failed (AttachmentMetadata := unit) 7 "bad input").2 = Some "bad input"
  ∧ (failed (AttachmentMetadata := unit) 7 "bad input").1 !! "entities" = None
  ∧ (failed (AttachmentMetadata := unit) 7 "bad input").1
      !! "processing_end_time" = None.
Proof.
  destruct (process_message_record_keys (AttachmentMetadata := unit)
              "/a/x.pst" 7 "Alice went to Rome" [] (fails "bad input") 10 11)
    as (_ & Hraised & _).
  exact Hraised.
Defined.

Lemma error_outcome_skipped_witness :
  let st := initial_state default_config (sample_session (AttachmentMetadata := unit)) in
  consume always_answers default_config always_commits 1
          [Outcome (failed 2 "bad input")] st
  = consume always_answers default_config always_commits (1 + 1) []
      (mkState (session st) (new_entities st) 1
         (trace st ++ [Log INFO (SkippingMessage (VInt 2) (VStr "/a/x.pst"));
                       Log DEBUG (SkippedDetail (VStr "/a/x.pst") (VInt 2)
                                                (Some "bad input"))])).
Proof.
  intros st.
  apply (error_outcome_skipped always_answers default_config always_commits
           (failed 2 "bad input").1 (Some "bad input")
           (VInt 2) (VStr "/a/x.pst") 1 [] st); by_evaluation.
Defined.

Lemma failed_commit_drops_batch_witness :
  let cfg := mkConfig 100 1 10 1000000 in
  let st := initial_state cfg (sample_session (AttachmentMetadata := unit)) in
  let out := analysed 1 [tt] [("Alice", "PERSON")] in
  ∃ st2,
    consume always_answers cfg never_commits 1 [Outcome out] st
    = consume always_answers cfg never_commits (1 + 1) [] st2
    ∧ new_entities st2 = []
    ∧ pending (session st2) = []
    ∧ committed (session st2) = []
    ∧ attempts (session st2) = 1%nat.
Proof.
  intros cfg st out.
  destruct (failed_commit_drops_batch always_answers cfg never_commits out.1 out.2
              (mkException "OperationalError" "database is locked")
              1 [] st)
    as (st1 & st2 & _ & Hrun & Hbuf & Hpend & Hcomm & _ & Hatt & _).
  - discriminate.
  - by_evaluation.
  - by_evaluation.
  - vm_compute. discriminate.
  - reflexivity.
  - exists st2. by repeat split.
Defined.

Lemma message_link_resolution_witness :
  let st := initial_state default_config
              (sample_session (AttachmentMetadata := unit)) in
  let out := analysed 1 [tt] [("Alice", "PERSON")] in
  (∃ st1 m,
     stage_message always_answers out.1 (with_msg_count 1 st) = Next st1
     ∧ pending (session st1)
       = [RMessage m; RAttachment (mkAttachment tt m (msg_file_report m))]
     ∧ msg_file_report m = Some sample_report
     ∧ trace st1 = trace st)
  ∧ (∃ st1 m,
       stage_message never_answers out.1 (with_msg_count 1 st) = Next st1
       ∧ pending (session st1)
         = [RMessage m; RAttachment (mkAttachment tt m (msg_file_report m))]
       ∧ msg_file_report m = None
       ∧ trace st1
         = trace st
             ++ [Log INFO
                   (UnableToLink (VInt 1)
                      (mkException "OperationalError" "database is locked"))]).
Proof.
  intros st out. split.
  - destruct (message_link_resolution always_answers default_config
                always_commits out.1 out.2 "/a/x.pst" 1 [] st)
      as (st1 & st2 & m & mid & Hstage & _ & _ & Hpend & Hone & _).
    + discriminate.
    + by_evaluation.
    + by_evaluation.
    + by_evaluation.
    + exists st1, m. split; [exact Hstage|].
      destruct (Hone sample_report) as [Hlink Htrace];
        [reflexivity|by_evaluation|].
      split; [|by split]. rewrite Hpend. by_evaluation.
  - destruct (message_link_resolution never_answers default_config
                always_commits out.1 out.2 "/a/x.pst" 1 [] st)
      as (st1 & st2 & m & mid & Hstage & Hmid & _ & Hpend & _ & Hfails & _).
    + discriminate.
    + by_evaluation.
    + by_evaluation.
    + by_evaluation.
    + exists st1, m. split; [exact Hstage|].
      destruct (Hfails (mkException "OperationalError" "database is locked"))
        as [Hlink Htrace]; [reflexivity|].
      split; [rewrite Hpend; by_evaluation|]. split; [exact Hlink|].
      rewrite Htrace. vm_compute in Hmid. by injection Hmid as <-.
Defined.

Lemma cancellation_status_witness :
  let pre := [Outcome (analysed (AttachmentMetadata := unit) 1 [tt]
                         [("Alice", "PERSON")]);
              Outcome (failed 2 "bad input")] in
  let rest := [Outcome (analysed 3 [] [("Rome", "GPE")])] in
  ∃ final,
    extract_entities always_answers default_config always_commits sample_session
                     (pre ++ Interrupt :: rest) = (Return 1, final)
    ∧ length (new_entities final) = 1%nat
    ∧ count_rows is_entity (pending (session final)) = 0%nat
    ∧ (extract_entities always_answers default_config always_commits
        sample_session pre).1
      = Return 0.
Proof.
  intros pre rest.
  destruct (cancellation_status always_answers default_config always_commits
              sample_session pre rest)
    as (st & final & finished & Hrun & Hcancel & Hsession & Hbuf & _ & Hdone).
  - discriminate.
  - all_well_formed.
  - exists final. split; [exact Hcancel|].
    rewrite Hbuf, Hsession, Hdone.
    vm_compute in Hrun. injection Hrun as <-. by repeat split.
Defined.

Lemma final_progress_zero_witness :
  let cfg := mkConfig 100 10000 2 1000000 in
  let stream := [Outcome (analysed (AttachmentMetadata := unit) 1 [] []);
                 Outcome (analysed 2 [] [("Rome", "GPE")])] in
  (∃ st final,
     consume always_answers cfg always_commits 1 stream
         (initial_state cfg sample_session)
     = Next st
     ∧ extract_entities always_answers cfg always_commits sample_session stream
       = (Return 0, final)
     ∧ trace final = trace st ++ [UpdateProgress 0; PoolTerminate])
  ∧ (extract_entities always_answers cfg always_commits
       (sample_session (AttachmentMetadata := unit)) []).1 = Return 0
  ∧ progress_calls
      (trace (extract_entities always_answers cfg always_commits
                (sample_session (AttachmentMetadata := unit)) []).2) = [0].
Proof.
  intros cfg stream.
  apply (final_progress_zero always_answers cfg always_commits
      sample_session stream).
  - discriminate.
  - all_well_formed.
  - exists 1. reflexivity.
Defined.


Lemma entity_count_conservation_witness :
  let stream := [Outcome (analysed (AttachmentMetadata := unit) 1 [tt]
                            [("Alice", "PERSON"); ("Rome", "GPE")]);
                 Outcome (failed 2 "bad input")] in
  ∃ final s',
    extract_entities always_answers default_config always_commits
        sample_session stream
    = (Return 0, final)
    ∧ count_rows is_entity (committed (session final) ++ pending (session final))
      = 2%nat
    ∧ session_commit always_commits (session final) = inr s'
    ∧ count_rows is_entity (committed s') = 2%nat.
Proof.
  intros stream.
  destruct (entity_count_conservation always_answers default_config always_commits
              sample_session stream)
    as (st & final & s' & _ & Hrun & _ & _ & _ & Hcount & Hcommit & Hdurable).
  - discriminate.
  - intros n. reflexivity.
  - all_well_formed.
  - exists final, s'. split; [exact Hrun|].
    split; [rewrite Hcount; by_evaluation|].
    split; [exact Hcommit|]. rewrite Hdurable. by_evaluation.
Defined.

(** ** Loading a spaCy model *)

Lemma prefix_app_iff (needle hay : string) :
  String.prefix needle hay = true ↔ ∃ rest, hay = needle +:+ rest.
Proof.
  revert hay. induction needle as [|c needle IH]; intros [|d hay]; simpl.
  - split; [intros _; by exists ""|done].
  - split; [intros _; by exists (String d hay)|done].
  - split; [done|by intros [rest ?]].
  - destruct (Ascii.ascii_dec c d) as [->|Hne].
    + rewrite IH. split; intros [rest Hrest]; exists rest;
        [by rewrite Hrest|by injection Hrest].
    + split; [done|]. intros [rest Hrest]. by injection Hrest.
Qed.

Lemma contains_iff (needle hay : string) :
  contains needle hay = true
  ↔ ∃ before after, hay = before +:+ needle +:+ after.
Proof.
  induction hay as [|c hay IH]; cbn [contains].
  - rewrite orb_false_r, prefix_app_iff. split.
    + intros [rest Hrest]. by exists "", rest.
    + intros ([|d before] & after & Hhay); [by exists after|done].
  - rewrite orb_true_iff, prefix_app_iff, IH. split.
    + intros [[rest Hrest]|(before & after & ->)].
      * by exists "", rest.
      * by exists (String c before), after.
    + intros ([|d before] & after & Hhay).
      * left. by exists after.
      * right. exists before, after. simpl in Hhay. by injection Hhay.
Qed.

(** A download is attempted exactly when the first [spacy.load] raises an
    [OSError] whose text mentions E050 (model not found), and then only
    once and never as a direct download. *)
Theorem load_spacy_model_downloads_when_missing (cfg : Config)
    (env : SpacyEnv) (name : string) :
  let log := (load_spacy_model cfg env name).2 in
  (DownloadCall name false ∈ log
   ↔ ∃ exc before after,
       first_load env = LoadOSError exc
       ∧ exc_str exc = before +:+ "E050" +:+ after)
  ∧ (length (List.filter is_download log) ≤ 1)%nat
  ∧ ∀ n direct, DownloadCall n direct ∈ log → n = name ∧ direct = false.
Proof.
  unfold load_spacy_model, finish_load.
  assert (∀ exc, contains "E050" (exc_str exc) = true
                 ↔ ∃ before after, exc_str exc = before +:+ "E050" +:+ after)
    as Hmissing by (intros exc; apply contains_iff).
  destruct (first_load env) as [m|exc|exc] eqn:Hfirst;
    [|destruct (contains "E050" (exc_str exc)) eqn:Hin;
      [destruct (download env);
       [destruct (second_load env)|..]|]|];
    try destruct (distribution_version env); simpl;
    (split; [|split; [lia|intros n direct; in_log]]);
    (split;
     [first [ by in_log
            | intros _; apply Hmissing in Hin as (before & after & Htext);
              by exists exc, before, after ]
     |intros (raised & before & after & Hraised & Htext);
      first [ by in_log
            | injection Hraised as <-;
              assert (contains "E050" (exc_str exc) = true) as Hyes
                by (apply Hmissing; by exists before, after);
              congruence ]]).
Qed.

Ltac load_cases env Hcode :=
  unfold load_spacy_model, finish_load;
  destruct (first_load env) as [?m|?exc|?exc] eqn:?Hfirst;
    [|match goal with
      | |- context [contains "E050" (exc_str ?e)] =>
          pose proof (contains_iff "E050" (exc_str e)) as Hcode;
          destruct (contains "E050" (exc_str e));
          [destruct (download env) eqn:?Hdl;
           [destruct (second_load env) eqn:?Hsecond|..]|]
      end|];
    try destruct (distribution_version env); simpl.

(** [load_spacy_model] returns a model exactly when a [spacy.load]
    returned one, at once or after the download that an E050 error
    triggers; the model it returns has the configured length limit, and
    the version is the installed distribution's, or [None] when that
    lookup raises. *)
Theorem load_spacy_model_result (cfg : Config) (env : SpacyEnv)
    (name : string) (m : SpacyModel) (v : option string) :
  (load_spacy_model cfg env name).1 = LoadReturn (Some m) v
  ↔ ∃ m0,
      (first_load env = Loaded m0
       ∨ ∃ exc before after,
           first_load env = LoadOSError exc
           ∧ exc_str exc = before +:+ "E050" +:+ after
           ∧ download env = DownloadDone
           ∧ second_load env = Loaded m0)
      ∧ m = mkSpacyModel (model_name m0) (RATOM_SPACY_MODEL_MAX_LENGTH cfg)
      ∧ v = match distribution_version env with
            | inr version => Some version
            | inl _ => None
            end.
Proof. load_cases env Hcode; naive_solver. Qed.

(** Its return type notwithstanding, [load_spacy_model] raises: when the
    first [spacy.load] raises something else than an [OSError], and,
    after an E050 error, when the download raises or when the
    [spacy.load] that follows the download raises, an [OSError]
    included. *)
Theorem load_spacy_model_raises (cfg : Config) (env : SpacyEnv)
    (name : string) (raised : Exception) :
  (load_spacy_model cfg env name).1 = LoadPropagate raised
  ↔ first_load env = LoadRaises raised
    ∨ ∃ exc before after,
        first_load env = LoadOSError exc
        ∧ exc_str exc = before +:+ "E050" +:+ after
        ∧ (download env = DownloadRaises raised
           ∨ download env = DownloadDone
             ∧ (second_load env = LoadOSError raised
                ∨ second_load env = LoadRaises raised)).
Proof. load_cases env Hcode; naive_solver. Qed.

(** ** The released spaCy models *)

Lemma split_once_Some (sep : Ascii.ascii) (s before after : string) :
  split_once sep s = Some (before, after) →
  s = before +:+ String sep after.
Proof.
  revert before. induction s as [|c s IH]; intros before; simpl; [done|].
  destruct (Ascii.eqb_spec c sep) as [->|_].
  - by intros [= <- <-].
  - destruct (split_once sep s) as [[b a]|]; [|done].
    intros [= <- <-]. simpl. by rewrite (IH b).
Qed.

Lemma split_once_None (sep : Ascii.ascii) (s : string) :
  split_once sep s = None ↔ contains (String sep "") s = false.
Proof.
  induction s as [|c s IH]; cbn [split_once contains]; [done|].
  simpl String.prefix.
  destruct (Ascii.eqb_spec c sep) as [->|Hne].
  - destruct (Ascii.ascii_dec sep sep); [|done]. by destruct s.
  - destruct (Ascii.ascii_dec sep c) as [->|_]; [done|]. simpl.
    rewrite <- IH. by destruct (split_once sep s) as [[b a]|].
Qed.

Lemma add_releases_lookup (rs : list Release)
    (acc r : gmap string (list string)) (name : string) :
  add_releases acc rs = inr r →
  r !! name = match versions_of name rs with
              | [] => acc !! name
              | vs => Some (default [] (acc !! name) ++ vs)
              end.
Proof.
  revert acc. induction rs as [|r0 rs IH]; intros acc; simpl.
  - by intros [= <-].
  - unfold add_release, versions_of. simpl.
    destruct (split_once dash (tag_name r0)) as [[n v]|]; [|done].
    fold (versions_of name rs).
    destruct (contains "a" v || contains "b" v); simpl.
    + rewrite andb_false_r. apply IH.
    + rewrite andb_true_r. intros Hrest. rewrite (IH _ Hrest).
      destruct (String.eqb_spec n name) as [->|Hne].
      * rewrite lookup_insert_eq. simpl.
        destruct (versions_of name rs); [done|by rewrite <- app_assoc].
      * by rewrite lookup_insert_ne.
Qed.

Lemma fetch_pages_lookup (web : string → Exception + Response) (fuel : nat)
    (url : string) (acc r : gmap string (list string)) (name : string) :
  fetch_pages web fuel url acc = PagesDone r →
  r !! name = match versions_of name (visited web fuel url) with
              | [] => acc !! name
              | vs => Some (default [] (acc !! name) ++ vs)
              end.
Proof.
  revert url acc. induction fuel as [|fuel IH]; intros url acc; simpl.
  - destruct (String.eqb url ""); [by intros [= <-]|done].
  - destruct (String.eqb url ""); [by intros [= <-]|].
    destruct (web url) as [exc|response]; [done|].
    destruct (ok response); [|done]. simpl.
    destruct (add_releases acc (content response)) as [exc|acc1] eqn:Hpage;
      [done|].
    pose proof (add_releases_lookup _ _ _ name Hpage) as Hacc1.
    unfold versions_of in *. rewrite omap_app.
    destruct (next_url response) as [next|].
    + intros Hrest. rewrite (IH _ _ Hrest), Hacc1.
      destruct (omap _ (content response)) as [|v vs];
        destruct (omap _ (visited web fuel next)) as [|v' vs'];
        simpl; try done.
      * by rewrite app_nil_r.
      * by rewrite <- app_assoc.
    + intros [= <-]. by rewrite app_nil_r.
Qed.

Lemma fetch_pages_HTTPError (web : string → Exception + Response)
    (fuel : nat) (url : string) (acc : gmap string (list string)) :
  fetch_pages web fuel url acc = PagesHTTPError →
  ∃ failing response, web failing = inr response ∧ ok response = false.
Proof.
  revert url acc. induction fuel as [|fuel IH]; intros url acc; simpl.
  - by destruct (String.eqb url "").
  - destruct (String.eqb url ""); [done|].
    destruct (web url) as [exc|response] eqn:Hweb; [done|].
    destruct (ok response) eqn:Hok; simpl; [|by exists url, response].
    destruct (add_releases acc (content response)); [done|].
    destruct (next_url response); [apply IH|done].
Qed.

Lemma visited_served (web : string → Exception + Response) (fuel : nat)
    (url : string) (release : Release) :
  release ∈ visited web fuel url →
  ∃ page response, web page = inr response ∧ release ∈ content response.
Proof.
  revert url. induction fuel as [|fuel IH]; intros url; simpl.
  - destruct (String.eqb url ""); by intros ?%elem_of_nil.
  - destruct (String.eqb url ""); [by intros ?%elem_of_nil|].
    destruct (web url) as [exc|response] eqn:Hweb;
      [by intros ?%elem_of_nil|].
    intros [Hin|Hin]%elem_of_app; [by exists url, response|].
    destruct (next_url response); [by apply IH in Hin|].
    by apply elem_of_nil in Hin.
Qed.

Lemma no_releases_lookup (name : string) (vs : list string) :
  no_releases !! name = Some vs → vs = [] ∧ name ∈ SPACY_MODEL_NAMES.
Proof.
  intros Hin%elem_of_list_to_map_2.
  apply list_elem_of_fmap in Hin as (n & [= -> ->] & Hn). by split.
Qed.

Lemma versions_of_elem (name version : string) (rs : list Release) :
  version ∈ versions_of name rs →
  ∃ release, release ∈ rs
             ∧ tag_name release = name +:+ "-" +:+ version
             ∧ contains "a" version = false
             ∧ contains "b" version = false.
Proof.
  unfold versions_of. intros (release & Hin & Hv)%list_elem_of_omap.
  exists release. split; [done|].
  destruct (split_once dash (tag_name release)) as [[n v]|] eqn:Hsplit;
    [|done].
  destruct (String.eqb_spec n name) as [->|]; [|done].
  destruct (contains "a" v || contains "b" v) eqn:Hpre; [done|].
  injection Hv as ->. apply orb_false_iff in Hpre as [Ha Hb].
  split; [by apply split_once_Some in Hsplit|done].
Qed.

Lemma add_releases_malformed (rs : list Release)
    (acc : gmap string (list string)) (release : Release) :
  release ∈ rs →
  split_once dash (tag_name release) = None →
  add_releases acc rs = inl ValueError.
Proof.
  intros Hin Hnone. revert acc.
  induction rs as [|r0 rs IH]; intros acc; [by apply elem_of_nil in Hin|].
  simpl. unfold add_release at 1.
  apply elem_of_cons in Hin as [<-|Hin]; [by rewrite Hnone|].
  destruct (split_once dash (tag_name r0)) as [[n v]|]; [|done].
  destruct (contains "a" v || contains "b" v); by apply IH.
Qed.

Lemma add_releases_total (rs : list Release)
    (acc : gmap string (list string)) :
  Forall (λ r, contains "-" (tag_name r) = true) rs →
  ∃ r, add_releases acc rs = inr r.
Proof.
  intros Hdash. revert acc.
  induction Hdash as [|r0 rs Hr0 _ IH]; intros acc; simpl; [by eexists|].
  unfold add_release.
  destruct (split_once dash (tag_name r0)) as [[n v]|] eqn:Hsplit.
  - destruct (contains "a" v || contains "b" v); apply IH.
  - apply split_once_None in Hsplit.
    change (String dash "") with "-" in Hsplit. congruence.
Qed.

Lemma fetch_pages_chain (web : string → Exception + Response)
    (url : string) (pages : list Response) :
  page_chain web url pages →
  Forall (λ response,
            ok response = true
            ∧ Forall (λ r, contains "-" (tag_name r) = true)
                     (content response)) pages →
  ∀ fuel acc,
    (length pages ≤ fuel)%nat →
    visited web fuel url = concat (content <$> pages)
    ∧ ∃ r, fetch_pages web fuel url acc = PagesDone r.
Proof.
  induction 1 as [|url response Hurl Hweb Hnext
                  |url next response pages Hurl Hweb Hnext _ IH];
    intros Hpages fuel acc Hfuel.
  - destruct fuel; simpl; split; by eauto.
  - apply Forall_cons in Hpages as [[Hok Hdash] _].
    destruct fuel as [|fuel]; [simpl in Hfuel; lia|].
    apply String.eqb_neq in Hurl. simpl. rewrite Hurl, Hweb, Hok, Hnext.
    simpl. rewrite app_nil_r. split; [done|].
    destruct (add_releases_total _ acc Hdash) as [r ->]. by eexists.
  - apply Forall_cons in Hpages as [[Hok Hdash] Hpages].
    destruct fuel as [|fuel]; [simpl in Hfuel; lia|].
    apply String.eqb_neq in Hurl. simpl. rewrite Hurl, Hweb, Hok, Hnext.
    simpl. destruct (add_releases_total _ acc Hdash) as [r ->].
    destruct (IH Hpages fuel r) as [-> Hrun]; [simpl in Hfuel; lia|].
    by split.
Qed.

(** [get_spacy_models] returns when the pages end.  If the links lead
    from the first page through finitely many pages, each one a
    successful response whose tags all have a dash, then with any fuel
    that covers the pages the function returns a dict, the same for all
    such fuels: it maps a model name to its versions in the order of the
    pages, a version being what follows the first dash of a tag and the
    versions with an [a] or a [b] being left out; a name without such a
    version is not a key. *)
Theorem get_spacy_models_versions (web : string → Exception + Response)
    (pages : list Response) (fuel : nat) :
  page_chain web first_page pages →
  Forall (λ response,
            ok response = true
            ∧ Forall (λ r, contains "-" (tag_name r) = true)
                     (content response)) pages →
  (length pages ≤ fuel)%nat →
  ∃ r,
    get_spacy_models web fuel = Some (inr r)
    ∧ ∀ name,
        r !! name = match versions_of name (concat (content <$> pages)) with
                    | [] => None
                    | vs => Some vs
                    end.
Proof.
  intros Hchain Hpages Hfuel.
  destruct (fetch_pages_chain web _ _ Hchain Hpages fuel ∅ Hfuel)
    as (Hvisited & r & Hrun).
  exists r. unfold get_spacy_models. rewrite Hrun. split; [done|].
  intros name. rewrite (fetch_pages_lookup _ _ _ _ _ name Hrun), Hvisited.
  by rewrite lookup_empty.
Qed.

(** No version that [get_spacy_models] lists contains an [a] or a [b]
    (alpha and beta releases), and each one was served: some page has a
    release whose tag is the model name, a dash and the version. *)
Theorem get_spacy_models_listed (web : string → Exception + Response)
    (fuel : nat) (r : gmap string (list string)) (name : string)
    (vs : list string) (version : string) :
  get_spacy_models web fuel = Some (inr r) →
  r !! name = Some vs →
  version ∈ vs →
  contains "a" version = false
  ∧ contains "b" version = false
  ∧ ∃ page response release,
      web page = inr response
      ∧ release ∈ content response
      ∧ tag_name release = name +:+ "-" +:+ version.
Proof.
  unfold get_spacy_models.
  destruct (fetch_pages web fuel first_page ∅) as [r'| | |] eqn:Hrun;
    try done; intros [= <-] Hlookup Hin.
  - rewrite (fetch_pages_lookup _ _ _ _ _ name Hrun), lookup_empty in Hlookup.
    destruct (versions_of name (visited web fuel first_page)) as [|v0 vs0]
      eqn:Hvs; [done|].
    injection Hlookup as <-. rewrite <- Hvs in Hin.
    apply versions_of_elem in Hin as (release & Hrel & Htag & Ha & Hb).
    apply visited_served in Hrel as (page & response & Hweb & Hrel).
    repeat split; try done. by exists page, response, release.
  - apply no_releases_lookup in Hlookup as [-> _].
    by apply elem_of_nil in Hin.
Qed.

(** A model with an empty list of versions means that the releases could
    not be fetched: some response was an HTTP error, and the result is
    the table of the packaged model names, each without a version,
    whatever the pages before the failing one had. *)
Theorem get_spacy_models_empty_list (web : string → Exception + Response)
    (fuel : nat) (r : gmap string (list string)) (name : string) :
  get_spacy_models web fuel = Some (inr r) →
  r !! name = Some [] →
  r = no_releases
  ∧ ∃ failing response, web failing = inr response ∧ ok response = false.
Proof.
  unfold get_spacy_models.
  destruct (fetch_pages web fuel first_page ∅) as [r'| | |] eqn:Hrun;
    try done; intros [= <-] Hlookup.
  - rewrite (fetch_pages_lookup _ _ _ _ _ name Hrun), lookup_empty in Hlookup.
    by destruct (versions_of name (visited web fuel first_page)).
  - split; [done|]. by eapply fetch_pages_HTTPError.
Qed.

(** A tag without a dash on the first page makes [get_spacy_models]
    raise [ValueError]: only [HTTPError] is caught. *)
Theorem get_spacy_models_malformed_tag (web : string → Exception + Response)
    (fuel : nat) (response : Response) (release : Release) :
  web first_page = inr response →
  ok response = true →
  release ∈ content response →
  contains "-" (tag_name release) = false →
  get_spacy_models web (S fuel) = Some (inl ValueError).
Proof.
  intros Hweb Hok Hin Hdash. unfold get_spacy_models.
  cbn [fetch_pages]. change (String.eqb first_page "") with false.
  cbn iota. rewrite Hweb, Hok. simpl negb. cbn iota.
  by rewrite (add_releases_malformed _ _ release Hin)
    by by apply split_once_None.
Qed.

(** ** Version strings *)

Section VersionFacts.

Variable decimal : N → bool.
Hypothesis dot_is_no_digit : decimal dot = false.

Lemma skip_digits_split (s : pystr) :
  ∃ ds, s = ds ++ skip_digits decimal s
        ∧ Forall (λ c, decimal c = true) ds
        ∧ match skip_digits decimal s with
          | c :: _ => decimal c = false
          | [] => True
          end.
Proof.
  induction s as [|c s (ds & Hs & Hds & Hhead)]; simpl.
  - by exists [].
  - destruct (decimal c) eqn:Hc.
    + exists (c :: ds). split; [simpl; by f_equal|]. split; [|done].
      by apply Forall_cons_2.
    + exists []. by repeat split.
Qed.

Lemma skip_digits_app (ds rest : pystr) :
  Forall (λ c, decimal c = true) ds →
  skip_digits decimal (ds ++ rest) = skip_digits decimal rest.
Proof.
  induction 1 as [|c ds Hc _ IH]; simpl; [done|]. by rewrite Hc.
Qed.

Lemma matches_digits (ds : pystr) :
  ds ≠ [] →
  Forall (λ c, decimal c = true) ds →
  matches decimal (Plus Digit) ds.
Proof.
  intros Hne Hds. induction Hds as [|c ds Hc Hds IH]; [done|].
  destruct ds as [|d ds].
  - apply matches_plus_one. by apply matches_digit.
  - apply (matches_plus_more decimal Digit [c]); [by apply matches_digit|].
    by apply IH.
Qed.

Lemma matches_digits_inv (s : pystr) :
  matches decimal (Plus Digit) s →
  s ≠ [] ∧ Forall (λ c, decimal c = true) s.
Proof.
  intros Hm. remember (Plus Digit) as r eqn:Hr.
  induction Hm as [| | |r s Hs _|r s1 s2 Hs1 _ Hs2 IH]; try done;
    injection Hr as ->.
  - inversion Hs; subst. split; [done|]. by apply Forall_singleton.
  - inversion Hs1; subst. destruct (IH eq_refl) as [_ Hall].
    split; [done|]. by apply Forall_cons_2.
Qed.

Lemma matches_groups_inv (s : pystr) :
  matches decimal (Plus (Seq (Char dot) (Plus Digit))) s →
  ∃ e rest, s = dot :: e :: rest ∧ decimal e = true.
Proof.
  intros Hm.
  assert (∀ t, matches decimal (Seq (Char dot) (Plus Digit)) t →
               ∃ e rest, t = dot :: e :: rest ∧ decimal e = true) as Hgroup.
  { intros t Ht. inversion Ht as [| |r1 r2 s1 s2 H1 H2| |]; subst.
    inversion H1; subst.
    apply matches_digits_inv in H2 as [Hne Hall].
    destruct s2 as [|e rest]; [done|].
    exists e, rest. split; [done|]. by apply Forall_cons in Hall as [? _]. }
  remember (Plus (Seq (Char dot) (Plus Digit))) as r eqn:Hr.
  destruct Hm as [| | |r s Hs|r s1 s2 Hs1 Hs2]; try done;
    injection Hr as ->.
  - by apply Hgroup.
  - apply Hgroup in Hs1 as (e & rest & -> & He).
    by exists e, (rest ++ s2).
Qed.

(** [validate_version_string] accepts a value exactly when the value
    begins with one or more decimal digits, a dot and a decimal digit;
    what follows is not looked at.  An accepted value is returned as it
    is, a rejected one is the message of [BadParameter]. *)
Theorem validate_version_string_accepts (value : pystr) :
  (validate_version_string decimal (Some value) = inr (Some value)
   ↔ ∃ ds d rest,
       ds ≠ [] ∧ Forall (λ c, decimal c = true) ds ∧ decimal d = true
       ∧ value = ds ++ dot :: d :: rest)
  ∧ (validate_version_string decimal (Some value) = inr (Some value)
     ∨ validate_version_string decimal (Some value)
       = inl (BadParameter value)).
Proof.
  unfold validate_version_string.
  split; [|by destruct (version_prefix decimal value); [left|right]].
  split.
  - destruct (version_prefix decimal value) eqn:Hv; [intros _|done].
    destruct value as [|c rest]; [done|]. simpl in Hv.
    apply andb_true_iff in Hv as [Hc Hv].
    destruct (skip_digits_split rest) as (ds & Hrest & Hds & _).
    destruct (skip_digits decimal rest) as [|d [|e tl]]; try done.
    apply andb_true_iff in Hv as [->%N.eqb_eq He].
    exists (c :: ds), e, tl. split; [done|].
    split; [by apply Forall_cons_2|]. split; [done|]. simpl. by f_equal.
  - intros (ds & d & rest & Hne & Hds & Hd & ->).
    destruct ds as [|c ds]; [done|].
    apply Forall_cons in Hds as [Hc Hds].
    unfold version_prefix. simpl. rewrite Hc, skip_digits_app by done.
    simpl. rewrite dot_is_no_digit, Hd. done.
Qed.

(** The scan of [validate_version_string] is the match of the pattern
    [\d+(?:\.\d+)+] at the start of the value: it succeeds exactly when
    some prefix of the value is matched by the pattern. *)
Theorem version_prefix_is_pattern_match (value : pystr) :
  version_prefix decimal value = true
  ↔ ∃ matched rest,
      value = matched ++ rest ∧ matches decimal version_pattern matched.
Proof.
  split.
  - intros Hv. destruct value as [|c rest]; [done|]. simpl in Hv.
    apply andb_true_iff in Hv as [Hc Hv].
    destruct (skip_digits_split rest) as (ds & Hrest & Hds & _).
    destruct (skip_digits decimal rest) as [|d [|e tl]]; try done.
    apply andb_true_iff in Hv as [->%N.eqb_eq He].
    exists ((c :: ds) ++ [dot] ++ [e]), tl. split.
    + rewrite Hrest. simpl. f_equal. by rewrite <- app_assoc.
    + apply matches_seq.
      * apply matches_digits; [done|by apply Forall_cons_2].
      * apply matches_plus_one, matches_seq; [apply matches_char|].
        apply matches_plus_one. by apply matches_digit.
  - intros (matched & rest & -> & Hm).
    inversion Hm as [| |r1 r2 s1 s2 H1 H2| |]; subst.
    apply matches_digits_inv in H1 as [Hne Hds].
    apply matches_groups_inv in H2 as (e & tl & -> & He).
    destruct s1 as [|c ds]; [done|].
    apply Forall_cons in Hds as [Hc Hds].
    unfold version_prefix. simpl. rewrite Hc, <- !app_assoc.
    rewrite skip_digits_app by done.
    simpl. rewrite dot_is_no_digit, He. done.
Qed.

End VersionFacts.

(** ** Installing a spaCy model *)

(** The [upgrade] flag only decides whether an installed model is left
    alone: when a version is asked for, or when the model is not
    installed, [install_spacy_model] does the same with and without
    it. *)
Theorem install_upgrade_irrelevant (env : InstallEnv) (model : string)
    (version : option string) (upgrade upgrade' : bool) :
  truthy version = true ∨ truthy (installed_version env) = false →
  install_spacy_model env model version upgrade
  = install_spacy_model env model version upgrade'.
Proof.
  unfold install_spacy_model.
  intros [-> | ->]; simpl; by rewrite ?andb_false_r.
Qed.

(** [install_spacy_model] returns 0 in two cases only: the model is
    installed and neither a version nor an upgrade is asked for (nothing
    is downloaded then); or the download returns, the installed
    distribution is found and, when a version is asked for, the two
    versions parse to the same one.  It downloads at most once, and by
    direct download exactly when a version is asked for. *)
Theorem install_succeeds_iff (env : InstallEnv) (model : string)
    (version : option string) (upgrade : bool) :
  let run := install_spacy_model env model version upgrade in
  (run.1 = InstallReturn 0
   ↔ (truthy version = false ∧ upgrade = false
      ∧ truthy (installed_version env) = true
      ∧ ∀ name direct, InstallDownload name direct ∉ run.2)
     ∨ (install_download env = DownloadDone
        ∧ ∃ installed,
            confirmed_version env = inr installed
            ∧ (truthy version = false
               ∨ ∃ v canonical,
                   version = Some v
                   ∧ parse env v = inr canonical
                   ∧ parse env installed = inr canonical)
            ∧ InstallDownload
                (model +:+ match version with
                           | Some v => if truthy version then "-" +:+ v
                                       else ""
                           | None => ""
                           end)
                (truthy version) ∈ run.2))
  ∧ (length (List.filter
               (λ e, match e with InstallDownload _ _ => true | _ => false end)
               run.2) ≤ 1)%nat.
Proof.
  unfold install_spacy_model.
  destruct version as [v|]; [destruct (truthy (Some v)) eqn:Hv|];
    destruct upgrade; destruct (truthy (installed_version env)) eqn:Hi;
    simpl negb; simpl andb; cbn iota;
    destruct (install_download env) eqn:Hdl;
    try destruct (confirmed_version env) as [exc|installed] eqn:Hconf;
    try destruct (parse env v) as [exc1|wanted] eqn:Hwanted;
    try destruct (parse env installed) as [exc2|found] eqn:Hfound;
    try destruct (String.eqb_spec wanted found) as [->|Hne];
    simpl; (split; [|lia]);
    (split; [intros Hret|intros Hcase]);
    try discriminate;
    try (exfalso; naive_solver);
    try reflexivity.
  all: try (left; repeat split; try done; intros name direct;
            rewrite ?elem_of_app, ?elem_of_cons, ?elem_of_nil;
            naive_solver).
  all: try (right; split; [done|]; exists installed; split; [done|];
            split; [naive_solver|];
            rewrite ?elem_of_app, ?elem_of_cons, ?elem_of_nil;
            naive_solver).
  all: destruct Hcase
         as [(? & ? & ? & ?)
            |(_ & i0 & Hi0 & [?|(v0 & c & Hv0 & Hp1 & Hp2)] & _)];
       simplify_eq; congruence.
Qed.

(** ** Listing the spaCy models *)

Lemma rsplit_once_None (sep : Ascii.ascii) (s : string) :
  rsplit_once sep s = None ↔ contains (String sep "") s = false.
Proof.
  induction s as [|c s IH]; cbn [rsplit_once contains]; [done|].
  simpl String.prefix.
  destruct (rsplit_once sep s) as [[b a]|].
  - split; [done|]. intros [_ Hs]%orb_false_iff.
    apply IH in Hs. done.
  - destruct IH as [IH _]. rewrite (IH eq_refl), orb_false_r.
    destruct (Ascii.eqb_spec c sep) as [->|Hne].
    + destruct (Ascii.ascii_dec sep sep); [|done]. by destruct s.
    + by destruct (Ascii.ascii_dec sep c) as [->|_].
Qed.

Lemma rsplit_once_Some (sep : Ascii.ascii) (s before after : string) :
  rsplit_once sep s = Some (before, after) →
  s = before +:+ String sep after
  ∧ contains (String sep "") after = false.
Proof.
  revert before. induction s as [|c s IH]; intros before; simpl; [done|].
  destruct (rsplit_once sep s) as [[b a]|] eqn:Hrest.
  - intros [= <- <-]. destruct (IH b eq_refl) as [-> Hafter]. by split.
  - destruct (Ascii.eqb_spec c sep) as [->|_]; [|done].
    intros [= <- <-]. split; [done|]. by apply rsplit_once_None.
Qed.

Lemma add_listings_total (rs : list Release) (acc : gmap string string) :
  Forall (λ r, contains "-" (release_name r) = true) rs →
  ∃ releases, add_listings acc rs = inr releases.
Proof.
  intros Hall. revert acc.
  induction Hall as [|r rs Hr _ IH]; intros acc; simpl; [by eexists|].
  unfold add_listing.
  destruct (rsplit_once dash (release_name r)) as [[n v]|] eqn:Hsplit.
  - apply IH.
  - apply rsplit_once_None in Hsplit.
    change (String dash "") with "-" in Hsplit. congruence.
Qed.

Lemma add_listings_keys (rs : list Release) (acc r : gmap string string)
    (name : string) :
  add_listings acc rs = inr r →
  is_Some (r !! name)
  ↔ is_Some (acc !! name) ∨ listed_versions name rs ≠ [].
Proof.
  revert acc. induction rs as [|r0 rs IH]; intros acc; simpl.
  - intros [= <-]. naive_solver.
  - unfold add_listing, listed_versions. simpl.
    destruct (rsplit_once dash (release_name r0)) as [[n v]|]; [|done].
    fold (listed_versions name rs).
    intros Hrest. rewrite (IH _ Hrest).
    destruct (String.eqb_spec n name) as [->|Hne].
    + rewrite lookup_insert_eq. split; [intros _; by right|].
      intros _. left. by eexists.
    + by rewrite lookup_insert_ne.
Qed.

Lemma leb_first_total :
  Total (λ x y : string * string, Is_true (String.leb x.1 y.1)).
Proof.
  intros x y.
  destruct (String.leb_total x.1 y.1) as [H|H]; rewrite H; [by left|by right].
Qed.

(** A list in ascending order of distinct keys is in strictly ascending
    order. *)
Lemma Sorted_strict (l : list (string * string)) :
  Sorted (λ x y, Is_true (String.leb x.1 y.1)) l →
  NoDup l.*1 →
  Sorted (λ x y, Is_true (String.leb x.1 y.1) ∧ x.1 ≠ y.1) l.
Proof.
  induction 1 as [|x l Hsorted IH Hhd]; [constructor|].
  rewrite fmap_cons. intros [Hx Hl]%NoDup_cons.
  constructor; [by apply IH|].
  destruct Hhd as [|y l' Hxy]; constructor.
  split; [done|]. intros Heq. apply Hx. rewrite fmap_cons, <- Heq.
  apply list_elem_of_here.
Qed.

(** What the row loop does: either every name is looked up and gives a
    row, or the loop ends at the first name whose lookup raises. *)
Lemma table_rows_spec (installed : installed_versions)
    (rows : list (string * string)) :
  (∃ lines,
     table_rows installed rows = inr lines
     ∧ Forall2 (λ row line,
                  ∃ version, installed row.1 = inr version
                             ∧ line = [Some row.1; version; Some row.2])
               rows lines)
  ∨ (∃ before row after exc,
       table_rows installed rows = inl exc
       ∧ rows = before ++ row :: after
       ∧ Forall (λ r, ∃ version, installed r.1 = inr version) before
       ∧ installed row.1 = inl exc).
Proof.
  induction rows as [|row rows IH]; simpl.
  - left. exists []. by split.
  - destruct (installed row.1) as [exc|version] eqn:Hrow.
    + right. exists [], row, rows, exc. by repeat split.
    + destruct IH as [(lines & -> & Hlines)
                     |(before & row' & after & exc & -> & -> & Hbefore & Hexc)].
      * left. eexists. split; [done|]. constructor; [by eexists|done].
      * right. exists (row :: before), row', after, exc.
        repeat split; try done. constructor; [by eexists|done].
Qed.

(** When the request succeeds and every release name has a dash,
    [list_spacy_models] looks up the installed version of one model
    name after the other in strictly ascending order of the names, a
    model name being what precedes the last dash of the name of a
    release.  If every lookup returns, the function returns 0 and prints
    one table: the header, then one row per model name in that order,
    with the name, the installed version and the available versions.  If
    not, it raises the exception of the first lookup that raises and
    prints nothing. *)
Theorem list_spacy_models_table (response : Response)
    (installed : installed_versions) :
  ok response = true →
  Forall (λ r, contains "-" (release_name r) = true) (content response) →
  ∃ rows : list (string * string),
    Sorted (λ x y, Is_true (String.leb x.1 y.1) ∧ x.1 ≠ y.1) rows
    ∧ (∀ name, name ∈ rows.*1
               ↔ listed_versions name (content response) ≠ [])
    ∧ ((∃ lines,
          list_spacy_models (inr response) installed
          = (ListReturn 0, Some (table_header :: lines))
          ∧ Forall2 (λ row line,
                       ∃ version,
                         installed row.1 = inr version
                         ∧ line = [Some row.1; version; Some row.2])
                    rows lines)
       ∨ (∃ before row after exc,
            list_spacy_models (inr response) installed
            = (ListPropagate exc, None)
            ∧ rows = before ++ row :: after
            ∧ Forall (λ r, ∃ version, installed r.1 = inr version) before
            ∧ installed row.1 = inl exc)).
Proof.
  intros Hok Hdash.
  destruct (add_listings_total _ ∅ Hdash) as (releases & Hrun).
  unfold list_spacy_models. rewrite Hok, Hrun. simpl.
  pose proof (merge_sort_Permutation
                (λ x y : string * string, Is_true (String.leb x.1 y.1))
                (map_to_list releases)) as Hperm.
  exists (merge_sort (λ x y : string * string, Is_true (String.leb x.1 y.1))
                     (map_to_list releases)).
  split; [|split].
  - apply Sorted_strict.
    + apply (Sorted_merge_sort _ (Total0 := leb_first_total)).
    + rewrite Hperm. apply NoDup_fst_map_to_list.
  - intros name. rewrite Hperm.
    trans (is_Some (releases !! name)).
    + rewrite list_elem_of_fmap. split.
      * intros ([n v] & -> & Hin%elem_of_map_to_list). by eexists.
      * intros [v Hv]. exists (name, v). split; [done|].
        by apply elem_of_map_to_list.
    + rewrite (add_listings_keys _ _ _ name Hrun), lookup_empty.
      split; [|by right]. intros [[? ?]|?]; done.
  - destruct (table_rows_spec installed
                (merge_sort (λ x y : string * string,
                               Is_true (String.leb x.1 y.1))
                            (map_to_list releases)))
      as [(lines & -> & Hlines)
         |(before & row & after & exc & -> & Hrows & Hbefore & Hexc)].
    + left. by exists lines.
    + right. by exists before, row, after, exc.
Qed.

Lemma append_not_empty (a b : string) : b ≠ "" → a +:+ b ≠ "".
Proof. destruct a; [done|]. by intros _. Qed.

Lemma truthy_Some (c : string) : c ≠ "" → truthy (Some c) = true.
Proof. intros Hc. simpl. by apply negb_true_iff, String.eqb_neq. Qed.

Lemma add_listings_cell (rs : list Release) (acc r : gmap string string)
    (name : string) :
  add_listings acc rs = inr r →
  Forall (λ v, v ≠ "") (listed_versions name rs) →
  (∀ c, acc !! name = Some c → c ≠ "") →
  r !! name
  = match listed_versions name rs with
    | [] => acc !! name
    | v :: vs =>
        Some (foldl (λ cell w, cell +:+ ", " +:+ w)
                    (match acc !! name with
                     | Some c => c +:+ ", " +:+ v
                     | None => v
                     end) vs)
    end.
Proof.
  revert acc. induction rs as [|r0 rs IH]; intros acc; simpl.
  - by intros [= <-].
  - unfold add_listing, listed_versions. simpl.
    destruct (rsplit_once dash (release_name r0)) as [[n v]|]; [|done].
    fold (listed_versions name rs).
    destruct (String.eqb_spec n name) as [->|Hne].
    + intros Hrest [Hv Hvs]%Forall_cons Hacc.
      rewrite (IH _ Hrest Hvs); rewrite lookup_insert_eq.
      * destruct (acc !! name) as [c|] eqn:Hc.
        -- rewrite (truthy_Some c) by by apply Hacc. simpl.
           by destruct (listed_versions name rs).
        -- simpl. by destruct (listed_versions name rs).
      * intros c [= <-]. destruct (acc !! name) as [c|] eqn:Hc.
        -- rewrite (truthy_Some c) by by apply Hacc. simpl.
           by apply append_not_empty, append_not_empty.
        -- done.
    + intros Hrest Hvs Hacc.
      rewrite (IH _ Hrest Hvs); rewrite lookup_insert_ne by done; [done|].
      apply Hacc.
Qed.

(** The versions cell of a model is the versions of its releases, in
    the order of the response, joined by a comma and a space, provided
    none of them is empty; the table is printed when the lookup of the
    installed version raises for no model of the response. *)
Theorem list_spacy_models_versions_cell (response : Response)
    (installed : installed_versions) (name v : string) (vs : list string) :
  ok response = true →
  Forall (λ r, contains "-" (release_name r) = true) (content response) →
  (∀ n, listed_versions n (content response) ≠ [] →
        ∃ version, installed n = inr version) →
  listed_versions name (content response) = v :: vs →
  Forall (λ w, w ≠ "") (v :: vs) →
  ∃ table version,
    list_spacy_models (inr response) installed = (ListReturn 0, Some table)
    ∧ installed name = inr version
    ∧ [Some name; version;
       Some (foldl (λ cell w, cell +:+ ", " +:+ w) v vs)] ∈ table.
Proof.
  intros Hok Hdash Hinstalled Hlisted Hne.
  destruct (add_listings_total _ ∅ Hdash) as (releases & Hrun).
  unfold list_spacy_models. rewrite Hok, Hrun. simpl.
  pose proof (merge_sort_Permutation
                (λ x y : string * string, Is_true (String.leb x.1 y.1))
                (map_to_list releases)) as Hperm.
  assert ((name, foldl (λ cell w, cell +:+ ", " +:+ w) v vs)
          ∈ merge_sort (λ x y : string * string, Is_true (String.leb x.1 y.1))
                       (map_to_list releases)) as Hrow.
  { rewrite Hperm. apply elem_of_map_to_list.
    rewrite (add_listings_cell _ _ _ name Hrun); rewrite ?Hlisted; done. }
  destruct (table_rows_spec installed
              (merge_sort (λ x y : string * string,
                             Is_true (String.leb x.1 y.1))
                          (map_to_list releases)))
    as [(lines & -> & Hlines)
       |(before & row & after & exc & _ & Hrows & _ & Hexc)].
  - apply list_elem_of_lookup in Hrow as [i Hi].
    destruct (Forall2_lookup_l _ _ _ _ _ Hlines Hi)
      as (line & Hline & version & Hversion & ->).
    exists (table_header :: lines), version.
    split; [done|]. split; [done|].
    apply elem_of_cons. right. by eapply list_elem_of_lookup_2.
  - destruct (Hinstalled row.1) as [version Hversion]; [|congruence].
    assert (row ∈ map_to_list releases) as Hin.
    { rewrite <- Hperm, Hrows. apply elem_of_app. right.
      apply list_elem_of_here. }
    destruct row as [n cell]. apply elem_of_map_to_list in Hin.
    assert (is_Some (releases !! n)) as Hsome by by eexists.
    rewrite (add_listings_keys _ _ _ n Hrun), lookup_empty in Hsome.
    destruct Hsome as [[? ?]|?]; done.
Qed.

(** * Sample runs of the further properties *)

Lemma progress_cadence_witness :
  let cfg := mkConfig 100 10000 2 1000000 in
  let stream := [Outcome (analysed (AttachmentMetadata := unit) 1 [tt]
                            [("Alice", "PERSON")]);
                 Outcome (failed 2 "bad input");
                 Outcome (analysed 3 [] []);
                 Outcome (analysed 4 [] [("Rome", "GPE")])] in
  progress_calls (trace (extract_entities always_answers cfg never_commits
      sample_session
                           stream).2)
  = [2; 0].
Proof.
  intros cfg stream.
  rewrite (progress_cadence always_answers cfg never_commits
      sample_session stream).
  - by_evaluation.
  - discriminate.
  - all_well_formed.
Defined.

Lemma success_only_cadence_witness :
  let cfg := mkConfig 100 10000 2 1000000 in
  let stream := [Outcome (analysed (AttachmentMetadata := unit) 1 [tt]
                            [("Alice", "PERSON")]);
                 Outcome (analysed 2 [] []);
                 Outcome (analysed 3 [] [("Rome", "GPE")])] in
  progress_calls (trace (final_state always_answers cfg always_commits
      sample_session stream))
  = [2; 1].
Proof.
  intros cfg stream.
  destruct (success_only_cadence always_answers cfg always_commits
      sample_session stream)
    as [Hcalls _].
  - reflexivity.
  - all_well_formed.
  - all_well_formed.
  - rewrite Hcalls. by_evaluation.
Defined.

Lemma rows_per_message_witness :
  let stream := [Outcome (analysed (AttachmentMetadata := unit) 1 [tt; tt] []);
                 Outcome (failed 2 "bad input");
                 Outcome (analysed 3 [tt] [("Rome", "GPE")])] in
  let final := final_state always_answers default_config always_commits
      sample_session
                 stream in
  count_rows is_message (committed (session final) ++ pending (session final))
  = 2%nat
  ∧ count_rows is_attachment
      (committed (session final) ++ pending (session final))
    = 3%nat.
Proof.
  intros stream final.
  destruct (rows_per_message always_answers default_config always_commits
      sample_session
              stream) as [Hmessages Hattachments].
  - discriminate.
  - intros n. reflexivity.
  - all_well_formed.
  - split.
    + etrans; [exact Hmessages|]. by_evaluation.
    + etrans; [exact Hattachments|]. by_evaluation.
Defined.

Lemma arrival_order_irrelevant_witness :
  let first := Outcome (analysed (AttachmentMetadata := unit) 1 [tt]
                          [("Alice", "PERSON")]) in
  let second := Outcome (failed 2 "bad input") in
  let third := Outcome (analysed 3 [] [("Rome", "GPE"); ("Bob", "PERSON")]) in
  let final := final_state always_answers default_config always_commits
      sample_session
                 [first; second; third] in
  let final' := final_state always_answers default_config always_commits
      sample_session
                  [third; first; second] in
  count_rows is_entity (committed (session final) ++ pending (session final))
  = count_rows is_entity
      (committed (session final') ++ pending (session final')).
Proof.
  intros first second third final final'.
  destruct (arrival_order_irrelevant always_answers default_config always_commits
              sample_session [first; second; third] [third; first; second])
    as (_ & _ & Hentities).
  - discriminate.
  - intros n. reflexivity.
  - all_well_formed.
  - symmetry. apply (Permutation_cons_app [first; second] []). reflexivity.
  - exact Hentities.
Defined.


Lemma buffer_below_threshold_witness :
  let cfg := mkConfig 100 2 10 1000000 in
  let stream := [Outcome (analysed (AttachmentMetadata := unit) 1 [tt]
                            [("Alice", "PERSON")]);
                 Outcome (analysed 2 [] [("Rome", "GPE"); ("Bob", "PERSON")])] in
  ∃ st,
    consume always_answers cfg never_commits 1 stream
        (initial_state cfg sample_session)
    = Next st
    ∧ Z.of_nat (length (new_entities st)) < 2.
Proof.
  intros cfg stream.
  destruct (consume_well_formed always_answers cfg never_commits stream 1
              (initial_state cfg sample_session)) as (st & Hrun).
  - discriminate.
  - all_well_formed.
  - exists st. split; [exact Hrun|].
    apply (buffer_below_threshold always_answers cfg never_commits
        sample_session stream st).
    + discriminate.
    + reflexivity.
    + all_well_formed.
    + exact Hrun.
Defined.

Lemma commit_per_message_witness :
  let cfg := mkConfig 100 0 10 1000000 in
  let stream := [Outcome (analysed (AttachmentMetadata := unit) 1 [tt] []);
                 Outcome (failed 2 "bad input");
                 Outcome (analysed 3 [] [("Rome", "GPE")])] in
  ∃ st,
    consume always_answers cfg always_commits 1 stream
        (initial_state cfg sample_session)
    = Next st
    ∧ attempts (session st) = 2%nat
    ∧ new_entities st = [].
Proof.
  intros cfg stream.
  destruct (consume_well_formed always_answers cfg always_commits stream 1
              (initial_state cfg sample_session)) as (st & Hrun).
  - discriminate.
  - all_well_formed.
  - exists st. split; [exact Hrun|].
    destruct (commit_per_message always_answers cfg always_commits
        sample_session stream st)
      as [Hattempts Hbuffer].
    + discriminate.
    + discriminate.
    + all_well_formed.
    + exact Hrun.
    + split; [|exact Hbuffer]. etrans; [exact Hattempts|]. by_evaluation.
Defined.

Lemma zero_progress_step_raises_witness :
  let cfg := mkConfig 100 10000 0 1000000 in
  let stream := [Outcome (failed (AttachmentMetadata := unit) 1 "bad input");
                 Outcome (analysed 2 [tt] [("Rome", "GPE")])] in
  (extract_entities always_answers cfg always_commits sample_session stream).1
  = Propagate ZeroDivisionError
  ∧ (extract_entities always_answers cfg always_commits sample_session
       (@nil (@arrival unit))).1
    = Propagate ZeroDivisionError.
Proof.
  intros cfg stream. split.
  - apply (zero_progress_step_raises always_answers cfg always_commits
      sample_session stream).
    + reflexivity.
    + all_well_formed.
  - apply (zero_progress_step_raises always_answers cfg always_commits
      sample_session []).
    + reflexivity.
    + apply Forall_nil_2.
Defined.

Lemma job_outcomes_are_drained_witness :
  let stream := [Outcome (analysed (AttachmentMetadata := unit) 1 [tt]
                            [("Alice", "PERSON")]);
                 Outcome (failed 2 "bad input")] in
  (extract_entities never_answers default_config never_commits
      sample_session stream).1
  = Return 0.
Proof.
  intros stream.
  apply (job_outcomes_are_drained never_answers default_config never_commits
      sample_session
           stream).
  - discriminate.
  - subst stream. apply Forall_cons_2; [|apply Forall_cons_2; [|apply Forall_nil_2]].
    + exists "/a/x.pst", 1, "Alice went to Rome", [tt],
        (finds [("Alice", "PERSON")]), 10, 11.
      split; [reflexivity|]. intros exc Hraised. discriminate Hraised.
    + exists "/a/x.pst", 2, "Alice went to Rome", [], (fails "bad input"),
        10, 11.
      split; [reflexivity|]. intros exc [= <-]. discriminate.
Defined.

Lemma get_spacy_models_versions_witness :
  ∃ r,
    get_spacy_models sample_web 5 = Some (inr r)
    ∧ ∀ name,
        r !! name
        = match versions_of name
                  [mkRelease "en_core_web_sm-2.1.0" "en_core_web_sm-2.1.0";
                   mkRelease "en_core_web_sm-2.1.0a7" "en_core_web_sm-2.1.0a7";
                   mkRelease "de_core_news_sm-2.1.0" "de_core_news_sm-2.1.0";
                   mkRelease "en_core_web_sm-2.2.0" "en_core_web_sm-2.2.0"] with
          | [] => None
          | vs => Some vs
          end.
Proof.
  apply (get_spacy_models_versions sample_web
           [mkResponse true
              [mkRelease "en_core_web_sm-2.1.0" "en_core_web_sm-2.1.0";
               mkRelease "en_core_web_sm-2.1.0a7" "en_core_web_sm-2.1.0a7";
               mkRelease "de_core_news_sm-2.1.0" "de_core_news_sm-2.1.0"]
              (Some "page2");
            mkResponse true
              [mkRelease "en_core_web_sm-2.2.0" "en_core_web_sm-2.2.0"] None]
           5).
  - apply (chain_next _ first_page "page2"); [done|reflexivity|reflexivity|].
    apply chain_last; [done|reflexivity|reflexivity].
  - repeat (apply Forall_cons_2;
            [split; [reflexivity|];
             repeat (apply Forall_cons_2; [by_evaluation|]);
             apply Forall_nil_2|]).
    apply Forall_nil_2.
  - simpl. lia.
Defined.

Lemma get_spacy_models_listed_witness :
  contains "a" "2.2.0" = false
  ∧ contains "b" "2.2.0" = false
  ∧ ∃ page response release,
      sample_web page = inr response
      ∧ release ∈ content response
      ∧ tag_name release = "en_core_web_sm" +:+ "-" +:+ "2.2.0".
Proof.
  apply (get_spacy_models_listed sample_web 5
           (<["de_core_news_sm" := ["2.1.0"]]>
              {["en_core_web_sm" := ["2.1.0"; "2.2.0"]]})
           "en_core_web_sm" ["2.1.0"; "2.2.0"] "2.2.0").
  - by_evaluation.
  - by_evaluation.
  - apply list_elem_of_further, list_elem_of_here.
Defined.

Lemma get_spacy_models_empty_list_witness :
  get_spacy_models failing_web 5 = Some (inr no_releases)
  ∧ ∃ failing response,
      failing_web failing = inr response ∧ ok response = false.
Proof.
  assert (get_spacy_models failing_web 5 = Some (inr no_releases)) as Hrun
    by by_evaluation.
  split; [exact Hrun|].
  destruct (get_spacy_models_empty_list failing_web 5 no_releases
              "en_core_web_sm" Hrun) as [_ Hfailing].
  - by_evaluation.
  - exact Hfailing.
Defined.

Lemma get_spacy_models_malformed_tag_witness :
  get_spacy_models malformed_web 1 = Some (inl ValueError).
Proof.
  apply (get_spacy_models_malformed_tag malformed_web 0
           (mkResponse true
              [mkRelease "en_core_web_sm-2.1.0" "en_core_web_sm-2.1.0";
               mkRelease "nightly" "nightly"] None)
           (mkRelease "nightly" "nightly")).
  - reflexivity.
  - reflexivity.
  - apply list_elem_of_further, list_elem_of_here.
  - by_evaluation.
Defined.

Lemma validate_version_string_accepts_witness :
  validate_version_string ascii_decimal (Some [50; 46; 49; 46; 48]%N)
  = inr (Some [50; 46; 49; 46; 48]%N)
  ∧ validate_version_string ascii_decimal (Some [50; 46; 120]%N)
    ≠ inr (Some [50; 46; 120]%N).
Proof.
  assert (ascii_decimal dot = false) as Hdot by reflexivity.
  split.
  - apply (validate_version_string_accepts ascii_decimal Hdot
             [50; 46; 49; 46; 48]%N).
    exists [50%N], 49%N, [46; 48]%N.
    split; [discriminate|]. split; [|done].
    apply Forall_cons_2; [reflexivity|apply Forall_nil_2].
  - intros Haccepted.
    apply (validate_version_string_accepts ascii_decimal Hdot
             [50; 46; 120]%N) in Haccepted.
    destruct Haccepted as (ds & d & rest & Hne & Hds & Hd & Hvalue).
    destruct ds as [|c ds]; [done|].
    injection Hvalue as <- Hvalue.
    destruct ds as [|c ds].
    + simpl in Hvalue. by simplify_eq.
    + simpl in Hvalue. simplify_eq.
      apply Forall_cons in Hds as [_ Hds].
      apply Forall_cons in Hds as [Hc _]. discriminate Hc.
Defined.

Lemma version_prefix_is_pattern_match_witness :
  ∃ matched rest,
    [50; 46; 49; 48; 120]%N = matched ++ rest
    ∧ matches ascii_decimal version_pattern matched.
Proof.
  assert (ascii_decimal dot = false) as Hdot by reflexivity.
  apply (version_prefix_is_pattern_match ascii_decimal Hdot
           [50; 46; 49; 48; 120]%N).
  reflexivity.
Defined.

Lemma install_upgrade_irrelevant_witness :
  install_spacy_model sample_install_env "en_core_web_sm" (Some "2.2.0") true
  = install_spacy_model sample_install_env "en_core_web_sm" (Some "2.2.0")
      false.
Proof.
  apply (install_upgrade_irrelevant sample_install_env "en_core_web_sm"
           (Some "2.2.0") true false).
  left. reflexivity.
Defined.

Lemma list_spacy_models_table_witness :
  ∃ rows : list (string * string),
    Sorted (λ x y, Is_true (String.leb x.1 y.1) ∧ x.1 ≠ y.1) rows
    ∧ (∀ name, name ∈ rows.*1
               ↔ listed_versions name (content nameless_response) ≠ [])
    ∧ ((∃ lines,
          list_spacy_models (inr nameless_response) nothing_installed
          = (ListReturn 0, Some (table_header :: lines))
          ∧ Forall2 (λ row line,
                       ∃ version,
                         nothing_installed row.1 = inr version
                         ∧ line = [Some row.1; version; Some row.2])
                    rows lines)
       ∨ (∃ before row after exc,
            list_spacy_models (inr nameless_response) nothing_installed
            = (ListPropagate exc, None)
            ∧ rows = before ++ row :: after
            ∧ Forall (λ r, ∃ version, nothing_installed r.1 = inr version)
                     before
            ∧ nothing_installed row.1 = inl exc)).
Proof.
  apply (list_spacy_models_table nameless_response nothing_installed).
  - reflexivity.
  - repeat (apply Forall_cons_2; [by_evaluation|]). apply Forall_nil_2.
Defined.

Lemma list_spacy_models_versions_cell_witness :
  ∃ table version,
    list_spacy_models (inr sample_response) nothing_installed
    = (ListReturn 0, Some table)
    ∧ nothing_installed "en_core_web_sm" = inr version
    ∧ [Some "en_core_web_sm"; version; Some "2.1.0, 2.2.0"] ∈ table.
Proof.
  apply (list_spacy_models_versions_cell sample_response nothing_installed
           "en_core_web_sm" "2.1.0" ["2.2.0"]).
  - reflexivity.
  - repeat (apply Forall_cons_2; [by_evaluation|]). apply Forall_nil_2.
  - intros n Hlisted. unfold nothing_installed.
    destruct (String.eqb_spec n "") as [->|_]; [|by eexists].
    by contradict Hlisted.
  - by_evaluation.
  - repeat (apply Forall_cons_2; [discriminate|]). apply Forall_nil_2.
Defined.
